(** * Parking-lot ticket ledger (tugas 2, app.py)

    A shallow embedding of the in-memory parking ledger: the module-level
    state ([active_tickets], [occupied_slots_count], [next_ticket_number]),
    the helpers ([generate_ticket_id], [find_next_available_slot],
    [calculate_cost]) and the request handlers ([create_entry],
    [create_exit], [get_all_tickets], the two webhooks), followed by the
    properties of the ledger.

    Modelling conventions.
    - Python integers are [Z].
    - A timezone-aware [datetime] is the instant it denotes, counted in
      microseconds since the epoch (the resolution of [datetime] and
      [timedelta]); the difference of two of them is a [timedelta] in
      microseconds.
    - A Python [float] is the rational it denotes; [total_seconds()] and
      the division by 3600 round their exact result to binary64, to
      nearest with ties to even ([round_binary64]). Infinities and NaN
      are out of reach of the durations of [datetime] and are not
      modelled.
    - A Python [str] is the list of its code points. [str.strip] removes
      the code points that [str.isspace] accepts; [str.upper] maps each
      code point on its own. On ASCII the case mapping is written out;
      beyond ASCII it is the table of the interpreter's Unicode database,
      taken as a parameter ([CaseTable]).
    - The dict [active_tickets] is a [gmap]; the order in which a dict
      enumerates its values is not modelled, and nothing below depends on
      it.
    - A handler runs under [data_lock] and is one atomic step on the
      state. The clock read by [get_current_time] is an argument [now].
    - A JSON request body is the value of its one field, which is a
      string when present, and [None] when the body or the field is
      missing. A JSON response is its body and its status; datetimes in a
      body are kept as instants, their rendering ([isoformat],
      [strftime]) belongs to the HTTP layer. *)

From Stdlib Require Import ZArith QArith Qround Qpower Lia Lqa String Ascii List.
From stdpp Require Import gmap strings list fin_maps sorting pretty.

Local Open Scope Z_scope.

(** ** Configuration *)

Definition TOTAL_SLOTS : Z := 5.
Definition HOURLY_RATE : Z := 3000.

(** ** Strings *)

(** A Python [str]: its code points, in order. *)
Abbreviation str := (list N).

(** The [str] of an ASCII literal. *)
Definition py (s : string) : str := N_of_ascii <$> list_ascii_of_string s.
Arguments py s%_string.

(** The code points that [str.isspace] accepts, and [str.strip] removes:
    general category Zs or bidirectional class WS, B or S. Next to the
    ASCII ones these are U+0085, the no-break space U+00A0, U+1680,
    U+2000 to U+200A, U+2028, U+2029, U+202F, U+205F and U+3000. *)
Definition whitespace : list N :=
  [ 9; 10; 11; 12; 13; 28; 29; 30; 31; 32; 133; 160; 5760;
    8192; 8193; 8194; 8195; 8196; 8197; 8198; 8199; 8200; 8201; 8202;
    8232; 8233; 8239; 8287; 12288 ]%N.

Definition isspace (c : N) : bool := bool_decide (c ∈ whitespace).

Fixpoint lstrip (s : str) : str :=
  match s with
  | [] => []
  | c :: s' => if isspace c then lstrip s' else s
  end.

Definition rstrip (s : str) : str := reverse (lstrip (reverse s)).

(** [s.strip()] *)
Definition strip (s : str) : str := rstrip (lstrip s).

(** The uppercase mapping of the code points from 128 on, as the Unicode
    database gives it: one code point can become several. *)
Class CaseTable := unicode_upper : N → list N.

(** The part of that table for Latin-1; code points beyond Latin-1 are
    left as they are. It is the table used to run the model on examples. *)
Definition latin1_upper : CaseTable := λ c,
  (if c =? 181 then [924]
   else if c =? 223 then [83; 83]
   else if c =? 255 then [376]
   else if (224 <=? c) && (c <=? 254) && negb (c =? 247) then [c - 32]
   else [c])%N.

(** ** State *)

(** One entry of [active_tickets]. *)
Record Ticket := mkTicket {
  ticket_id : str;
  plate_number : str;
  entry_time : Z;
  slot_number : Z
}.

(** The three module-level variables. *)
Record State := mkState {
  active_tickets : gmap str Ticket;
  occupied_slots_count : Z;
  next_ticket_number : Z
}.

(** The state when the module has been loaded. *)
Definition initial_state : State :=
  {| active_tickets := ∅; occupied_slots_count := 0; next_ticket_number := 1 |}.

Definition set_occupied_slots_count (n : Z) (st : State) : State :=
  {| active_tickets := active_tickets st;
     occupied_slots_count := n;
     next_ticket_number := next_ticket_number st |}.

Definition set_active_tickets (m : gmap str Ticket) (st : State) : State :=
  {| active_tickets := m;
     occupied_slots_count := occupied_slots_count st;
     next_ticket_number := next_ticket_number st |}.

(** A small state monad for the code that reads and writes the globals. *)
Definition M (A : Type) : Type := State → A * State.

Definition ret {A} (a : A) : M A := λ st, (a, st).
Definition bind {A B} (m : M A) (k : A → M B) : M B :=
  λ st, let '(a, st') := m st in k a st'.
Definition get : M State := λ st, (st, st).
Definition modify (f : State → State) : M unit := λ st, (tt, f st).

(** The monad is used through stdpp's notations [x ← m; k] and [m;; k]. *)
#[global] Instance M_ret : MRet M := @ret.
#[global] Instance M_bind : MBind M := λ A B k m, bind m k.

(** ** Responses *)

(** A response: an error body [{"error": msg}] or a body of type [A], with
    the HTTP status. *)
Inductive Response (A : Type) : Type :=
| Failure (error : string) (status : Z)
| Success (body : A) (status : Z).
Arguments Failure {A} error status.
Arguments Success {A} body status.

(** ** The ledger *)

Section Ledger.

Context {case_table : CaseTable}.

(** [str.upper] of one code point. *)
Definition upper_char (c : N) : list N :=
  if (c <? 128)%N
  then [if ((97 <=? c) && (c <=? 122))%N then (c - 32)%N else c]
  else unicode_upper c.

(** [s.upper()] *)
Fixpoint upper (s : str) : str :=
  match s with
  | [] => []
  | c :: s' => upper_char c ++ upper s'
  end.

(** ** Helpers *)

Fixpoint zeros (n : nat) : string :=
  match n with
  | O => EmptyString
  | S n' => String "0" (zeros n')
  end.

(** Left padding with ["0"] up to [width] characters. *)
Definition zfill (width : nat) (s : string) : string :=
  zeros (width - String.length s) +:+ s.

(** The format [{n:04d}]: decimal digits, zero-padded to four characters,
    the sign (if any) before the padding. *)
Definition format_04d (n : Z) : string :=
  if n <? 0 then "-" +:+ zfill 3 (pretty (Z.abs_N n))
  else zfill 4 (pretty (Z.to_N n)).

Definition generate_ticket_id : M str :=
  st ← get;
  let ticket_id := py ("T" +:+ format_04d (next_ticket_number st)) in
  modify (λ st, {| active_tickets := active_tickets st;
                   occupied_slots_count := occupied_slots_count st;
                   next_ticket_number := next_ticket_number st + 1 |});;
  ret ticket_id.

(** [range(a, b)] *)
Definition range (a b : Z) : list Z := seqZ a (b - a).

(** [{ticket['slot_number'] for ticket in active_tickets.values()}] *)
Definition used_slots (st : State) : gset Z :=
  map_img (slot_number <$> active_tickets st).

(** The [for] loop of [find_next_available_slot] over the remaining
    candidates. *)
Fixpoint first_unused (used : gset Z) (candidates : list Z) : option Z :=
  match candidates with
  | [] => None
  | i :: rest => if decide (i ∉ used) then Some i else first_unused used rest
  end.

Definition find_next_available_slot (st : State) : option Z :=
  first_unused (used_slots st) (range 1 (TOTAL_SLOTS + 1)).

(** ** Floats *)

(** The exponent of the leading bit of a positive rational. *)
Definition floor_log2 (x : Q) : Z :=
  let l := Z.log2 (Qnum x) - Z.log2 (Zpos (Qden x)) in
  if Qle_bool (2 ^ l) x then l else l - 1.

(** The nearest integer, a tie going to the even one. *)
Definition round_half_even (x : Q) : Z :=
  let f := Qfloor x in
  match (x - inject_Z f ?= 1 # 2)%Q with
  | Lt => f
  | Gt => f + 1
  | Eq => if Z.even f then f else f + 1
  end.

(** The exponent of the last place of the binary64 numbers around a
    positive [x]: 53 significant bits, and never below the subnormals. *)
Definition float_exponent (x : Q) : Z := Z.max (floor_log2 x - 52) (-1074).

Definition round_pos (x : Q) : Q :=
  let e := float_exponent x in
  (inject_Z (round_half_even (x * 2 ^ (- e))) * 2 ^ e)%Q.

(** The binary64 number nearest to [x], ties to even. *)
Definition round_binary64 (x : Q) : Q :=
  match (x ?= 0)%Q with
  | Eq => 0%Q
  | Gt => round_pos x
  | Lt => (- round_pos (- x))%Q
  end.

(** Microseconds in one second. *)
Definition US_PER_SECOND : Z := 1000000.

(** [timedelta.total_seconds()] of a duration given in microseconds: the
    float nearest to the quotient by [10**6]. *)
Definition total_seconds (duration : Z) : Q :=
  round_binary64 (inject_Z duration / inject_Z US_PER_SECOND).

(** The hours that [calculate_cost] counts for a duration, before it
    applies the minimum: the ceiling of the float quotient by 3600. *)
Definition hours_float (duration : Z) : Z :=
  Qceiling (round_binary64 (total_seconds duration / inject_Z 3600)).

(** [calculate_cost(entry_time, exit_time)]; the float division by 3600
    rounds, [math.ceil] of the float is exact. *)
Definition calculate_cost (entry_time exit_time : Z) : Z * Z :=
  let duration := exit_time - entry_time in
  let total_seconds := total_seconds duration in
  let duration_hours := Qceiling (round_binary64 (total_seconds / inject_Z 3600)) in
  let duration_hours := if duration_hours <? 1 then 1 else duration_hours in
  let cost := duration_hours * HOURLY_RATE in
  (duration_hours, cost).

(** ** Initial data *)

(** The instants of 2025-10-17 08:00:00, 09:15:00 and 10:30:00 in
    Asia/Jakarta (UTC+7). *)
Definition initial_entries : list (str * Z) :=
  [ (py "B1234AA", 1760662800000000);
    (py "D4567BB", 1760667300000000);
    (py "F7890CC", 1760671800000000) ].

(** One iteration of the loop of [populate_initial_data]. *)
Definition populate_one (entry : str * Z) : M unit :=
  let '(plate, time) := entry in
  ticket_id ← generate_ticket_id;
  st ← get;
  match find_next_available_slot st with
  | None => ret tt
  | Some slot =>
      modify (set_active_tickets
        (<[ticket_id := {| ticket_id := ticket_id;
                           plate_number := upper plate;
                           entry_time := time;
                           slot_number := slot |}]> (active_tickets st)))
  end.

Fixpoint for_each {A} (body : A → M unit) (l : list A) : M unit :=
  match l with
  | [] => ret tt
  | x :: rest => body x;; for_each body rest
  end.

Definition populate_initial_data : M unit :=
  st ← get;
  if decide (active_tickets st = ∅) then
    for_each populate_one initial_entries;;
    modify (λ st, set_occupied_slots_count (Z.of_nat (size (active_tickets st))) st)
  else ret tt.

(** ** Endpoints *)

Record SlotStatus := mkSlotStatus {
  total_slots : Z;
  occupied_slots : Z;
  available_slots : Z
}.

Definition get_available_slots : M SlotStatus :=
  st ← get;
  let available := TOTAL_SLOTS - occupied_slots_count st in
  ret {| total_slots := TOTAL_SLOTS;
         occupied_slots := occupied_slots_count st;
         available_slots := if 0 <=? available then available else 0 |}.

Record EntryBody := mkEntryBody {
  entry_ticket_id : str;
  entry_plate_number : str;
  entry_slot_number : Z;
  entry_entry_time : Z;
  entry_available_slots : Z
}.

Definition MSG_PLATE_REQUIRED : string := "plate_number is required".
Definition MSG_LOT_FULL : string := "Parking lot is full".
Definition MSG_LOT_FULL_DESYNC : string :=
  "Parking lot is full (state desync detected)".
Definition MSG_TICKET_REQUIRED : string := "ticket_id is required".
Definition MSG_TICKET_NOT_FOUND : string := "Ticket not found".

Definition create_entry (data : option str) (now : Z)
  : M (Response EntryBody) :=
  match data with
  | None => ret (Failure MSG_PLATE_REQUIRED 400)
  | Some raw =>
    if decide (strip raw = [])
    then ret (Failure MSG_PLATE_REQUIRED 400) else
    let plate_number := upper (strip raw) in
    st ← get;
    if TOTAL_SLOTS <=? occupied_slots_count st
    then ret (Failure MSG_LOT_FULL 400)
    else
      match find_next_available_slot st with
      | None =>
          modify (set_occupied_slots_count
                    (Z.of_nat (size (active_tickets st))));;
          ret (Failure MSG_LOT_FULL_DESYNC 400)
      | Some slot_number =>
          let entry_time := now in
          ticket_id ← generate_ticket_id;
          let new_ticket := {| ticket_id := ticket_id;
                               plate_number := plate_number;
                               entry_time := entry_time;
                               slot_number := slot_number |} in
          modify (λ st, set_active_tickets
                          (<[ticket_id := new_ticket]> (active_tickets st)) st);;
          modify (λ st, set_occupied_slots_count
                          (occupied_slots_count st + 1) st);;
          st ← get;
          let available_slots_now := TOTAL_SLOTS - occupied_slots_count st in
          ret (Success {| entry_ticket_id := ticket_id;
                          entry_plate_number := plate_number;
                          entry_slot_number := slot_number;
                          entry_entry_time := entry_time;
                          entry_available_slots := available_slots_now |} 201)
      end
  end.

Record ExitBody := mkExitBody {
  exit_ticket_id : str;
  exit_plate_number : str;
  exit_duration_hours : Z;
  exit_cost : Z;
  exit_entry_time : Z;
  exit_exit_time : Z
}.

Definition create_exit (data : option str) (now : Z)
  : M (Response ExitBody) :=
  match data with
  | None => ret (Failure MSG_TICKET_REQUIRED 400)
  | Some raw =>
    let ticket_id := upper (strip raw) in
    st ← get;
    match active_tickets st !! ticket_id with
    | None => ret (Failure MSG_TICKET_NOT_FOUND 404)
    | Some ticket =>
        let exit_time := now in
        let entry_time := entry_time ticket in
        let '(duration_hours, cost) := calculate_cost entry_time exit_time in
        modify (λ st, set_active_tickets
                        (delete ticket_id (active_tickets st)) st);;
        st ← get;
        (if 0 <? occupied_slots_count st
         then modify (set_occupied_slots_count (occupied_slots_count st - 1))
         else ret tt);;
        ret (Success {| exit_ticket_id := ticket_id;
                        exit_plate_number := plate_number ticket;
                        exit_duration_hours := duration_hours;
                        exit_cost := cost;
                        exit_entry_time := entry_time;
                        exit_exit_time := exit_time |} 200)
    end
  end.

Record TicketData := mkTicketData {
  data_ticket_id : str;
  data_plate_number : str;
  data_slot_number : Z;
  data_entry_time : Z;
  current_duration_hours : Z;
  current_cost : Z
}.
(** The body of the loop of [get_all_tickets]. *)
Definition ticket_data (now : Z) (ticket : Ticket) : TicketData :=
  let '(duration_hours, current_cost) :=
    calculate_cost (entry_time ticket) now in
  {| data_ticket_id := ticket_id ticket;
     data_plate_number := plate_number ticket;
     data_slot_number := slot_number ticket;
     data_entry_time := entry_time ticket;
     current_duration_hours := duration_hours;
     current_cost := current_cost |}.

(** [list.sort(key=lambda x: x['slot_number'])]: a stable sort, here by
    insertion; an element goes before the first one that is not smaller,
    so equal keys keep their order. *)
Fixpoint insert_by_slot (x : TicketData) (l : list TicketData)
  : list TicketData :=
  match l with
  | [] => [x]
  | y :: rest =>
      if data_slot_number x <=? data_slot_number y then x :: l
      else y :: insert_by_slot x rest
  end.

Definition sort_by_slot (l : list TicketData) : list TicketData :=
  foldr insert_by_slot [] l.

(** [list(active_tickets.values())] *)
Definition values (m : gmap str Ticket) : list Ticket :=
  (map_to_list m).*2.

Definition get_all_tickets (now : Z) : M (list TicketData) :=
  st ← get;
  let current_tickets := values (active_tickets st) in
  let tickets_list := ticket_data now <$> current_tickets in
  ret (sort_by_slot tickets_list).

Definition webhook_slot_minus : M Z :=
  st ← get;
  (if 0 <? occupied_slots_count st
   then modify (set_occupied_slots_count (occupied_slots_count st - 1))
   else ret tt);;
  st ← get;
  ret (occupied_slots_count st).

Definition webhook_slot_plus : M Z :=
  st ← get;
  (if occupied_slots_count st <? TOTAL_SLOTS
   then modify (set_occupied_slots_count (occupied_slots_count st + 1))
   else ret tt);;
  st ← get;
  ret (occupied_slots_count st).

(** ** Runs of the ledger *)

(** One request, with what it reads from outside (body field, clock). *)
Inductive Operation : Type :=
| OpPopulate
| OpAvailable
| OpEntry (data : option str) (now : Z)
| OpExit (data : option str) (now : Z)
| OpTickets (now : Z)
| OpSlotMinus
| OpSlotPlus.

(** The state after one request. *)
Definition step (op : Operation) (st : State) : State :=
  match op with
  | OpPopulate => snd (populate_initial_data st)
  | OpAvailable => snd (get_available_slots st)
  | OpEntry data now => snd (create_entry data now st)
  | OpExit data now => snd (create_exit data now st)
  | OpTickets now => snd (get_all_tickets now st)
  | OpSlotMinus => snd (webhook_slot_minus st)
  | OpSlotPlus => snd (webhook_slot_plus st)
  end.

Definition run (ops : list Operation) (st : State) : State :=
  foldl (λ st op, step op st) st ops.

(** The states the process can be in: those of a run from the state at
    module load. *)
Inductive reachable : State → Prop :=
| reachable_initial : reachable initial_state
| reachable_step op st : reachable st → reachable (step op st).


(** A run of check-in requests: the response and the state after each. *)
Fixpoint check_ins (reqs : list (option str * Z)) (st : State)
  : list (Response EntryBody * State) :=
  match reqs with
  | [] => []
  | (data, now) :: rest =>
      let r := create_entry data now st in
      r :: check_ins rest (snd r)
  end.

Definition is_success {A} (r : Response A) : bool :=
  match r with Success _ _ => true | Failure _ _ => false end.

(** The ticket ids handed out by a run of check-in requests, in order. *)
Definition issued_ids (trace : list (Response EntryBody * State)) : list str :=
  omap (λ r, match fst r with
             | Success body _ => Some (entry_ticket_id body)
             | Failure _ _ => None
             end) trace.

(** The slots handed out by a run of check-in requests, in order. *)
Definition assigned_slots (trace : list (Response EntryBody * State)) : list Z :=
  omap (λ r, match fst r with
             | Success body _ => Some (entry_slot_number body)
             | Failure _ _ => None
             end) trace.

(** [P before response after] holds of every check-in of a run. *)
Fixpoint each_check_in (P : State → Response EntryBody → State → Prop)
    (reqs : list (option str * Z)) (st : State) : Prop :=
  match reqs with
  | [] => True
  | (data, now) :: rest =>
      let r := create_entry data now st in
      P st (fst r) (snd r) ∧ each_check_in P rest (snd r)
  end.

(** ** The vocabulary of the specification *)

(** Slot [i] is held by an active ticket. *)
Definition held (st : State) (i : Z) : Prop :=
  ∃ k t, active_tickets st !! k = Some t ∧ slot_number t = i.

(** Every slot number held by an active ticket is unique. *)
Definition slots_distinct (st : State) : Prop :=
  ∀ k1 k2 t1 t2,
    active_tickets st !! k1 = Some t1 →
    active_tickets st !! k2 = Some t2 →
    slot_number t1 = slot_number t2 → k1 = k2.

(** Every active ticket has its slot in [[1, TOTAL_SLOTS]]. *)
Definition slots_in_range (st : State) : Prop :=
  ∀ k t, active_tickets st !! k = Some t → 1 ≤ slot_number t ≤ TOTAL_SLOTS.

(** [occupied_count] is within [[0, TOTAL_SLOTS]]. *)
Definition counter_in_range (st : State) : Prop :=
  0 ≤ occupied_slots_count st ≤ TOTAL_SLOTS.

(** Integer ceiling of [a / b] for [b > 0]. *)
Definition ceil_div (a b : Z) : Z := (a + b - 1) / b.

Definition US_PER_HOUR : Z := 3600 * US_PER_SECOND.

(** The billing rule in the words of the specification: the ceiling of
    the elapsed hours, at least one, times the hourly rate. The elapsed
    time is in microseconds. *)
Definition compute_cost_spec (elapsed : Z) : Z * Z :=
  let duration_hours := Z.max 1 (ceil_div elapsed US_PER_HOUR) in
  (duration_hours, duration_hours * HOURLY_RATE).

(** The error responses, under the names of the specification. *)
Definition ValidationError_plate {A} : Response A := Failure MSG_PLATE_REQUIRED 400.
Definition LotFullError {A} : Response A := Failure MSG_LOT_FULL 400.
Definition LotFullError_desync {A} : Response A := Failure MSG_LOT_FULL_DESYNC 400.
Definition TicketNotFoundError {A} : Response A := Failure MSG_TICKET_NOT_FOUND 404.

(** [seconds s] is a duration of [s] seconds, [hours h] one of [h] hours. *)
Definition seconds (s : Z) : Z := s * US_PER_SECOND.
Definition hours (h : Z) : Z := h * US_PER_HOUR.

(** The longest stay for which the floats of [calculate_cost] are known
    to lose nothing: [2 ** 34] seconds, a little over 544 years. *)
Definition EXACT_RANGE : Z := seconds (2 ^ 34).

(** The ticket written by a successful check-in. *)
Definition ticket_of_entry (raw : str) (now : Z) (st : State) (slot : Z)
  : Ticket :=
  {| ticket_id := py ("T" +:+ format_04d (next_ticket_number st));
     plate_number := upper (strip raw);
     entry_time := now;
     slot_number := slot |}.

(** The four ways a check-in can go. *)
Inductive entry_outcome (data : option str) (now : Z) (st : State)
  : Response EntryBody * State → Prop :=
| entry_invalid :
    (∀ raw, data = Some raw → strip raw = []) →
    entry_outcome data now st (ValidationError_plate, st)
| entry_full raw :
    data = Some raw → strip raw ≠ [] →
    TOTAL_SLOTS ≤ occupied_slots_count st →
    entry_outcome data now st (LotFullError, st)
| entry_desync raw :
    data = Some raw → strip raw ≠ [] →
    occupied_slots_count st < TOTAL_SLOTS →
    find_next_available_slot st = None →
    entry_outcome data now st
      (LotFullError_desync,
       set_occupied_slots_count (Z.of_nat (size (active_tickets st))) st)
| entry_created raw slot :
    data = Some raw → strip raw ≠ [] →
    occupied_slots_count st < TOTAL_SLOTS →
    find_next_available_slot st = Some slot →
    entry_outcome data now st
      (Success {| entry_ticket_id := py ("T" +:+ format_04d (next_ticket_number st));
                  entry_plate_number := upper (strip raw);
                  entry_slot_number := slot;
                  entry_entry_time := now;
                  entry_available_slots :=
                    TOTAL_SLOTS - (occupied_slots_count st + 1) |} 201,
       {| active_tickets :=
            <[py ("T" +:+ format_04d (next_ticket_number st))
              := ticket_of_entry raw now st slot]> (active_tickets st);
          occupied_slots_count := occupied_slots_count st + 1;
          next_ticket_number := next_ticket_number st + 1 |}).

(** The slot numbers of the active tickets, one per ticket. *)
Definition slot_list (st : State) : list Z :=
  slot_number <$> values (active_tickets st).

(** A ledger whose tickets sit in distinct slots of the range. *)
Definition well_formed (st : State) : Prop :=
  slots_distinct st ∧ slots_in_range st.

(** A lot filled by five check-ins, one second apart. *)
Definition five_cars : list Operation :=
  [ OpEntry (Some (py "B1001AA")) (seconds 1);
    OpEntry (Some (py "B1002AA")) (seconds 2);
    OpEntry (Some (py "B1003AA")) (seconds 3);
    OpEntry (Some (py "B1004AA")) (seconds 4);
    OpEntry (Some (py "B1005AA")) (seconds 5) ].

Definition full_lot : State := run five_cars initial_state.

(** The two occupancy webhooks as one signal: [true] adds one, [false]
    removes one. *)
Definition adjust_occupancy (plus : bool) : Operation :=
  if plus then OpSlotPlus else OpSlotMinus.

(** The lot after the initial data has been loaded. *)
Definition populated : State := step OpPopulate initial_state.

(** Five tickets, then one decrement signal: the counter says four. *)
Definition desynced_lot : State := step OpSlotMinus full_lot.

(** Ascending order of slot number. *)
Definition slot_le (a b : TicketData) : Prop :=
  data_slot_number a ≤ data_slot_number b.

(** The value of a decimal digit, and of a string of digits read from the
    left. *)
Definition digit_value (c : N) : N := (c - 48)%N.

Fixpoint read_digits (acc : N) (s : str) : N :=
  match s with
  | [] => acc
  | c :: s' => read_digits (acc * 10 + digit_value c) s'
  end.

(** The number in a ticket id: what follows the ["T"] (code point 84). *)
Definition ticket_number (id : str) : option Z :=
  match id with
  | c :: digits =>
      if (c =? 84)%N then Some (Z.of_N (read_digits 0 digits)) else None
  | [] => None
  end.

(** The specification's format of a sequence number below 10000: its
    four decimal digits, thousands first. *)
Definition digit_char (d : Z) : ascii := ascii_of_N (48 + Z.to_N d).

Definition four_digits (n : Z) : string :=
  String (digit_char ((n / 1000) `mod` 10))
    (String (digit_char ((n / 100) `mod` 10))
      (String (digit_char ((n / 10) `mod` 10))
        (String (digit_char (n `mod` 10)) EmptyString))).

(** The ticket id made from sequence number [n]. *)
Definition ticket_id_of (n : Z) : str := py ("T" +:+ format_04d n).

(** The ticket id that a request hands out, if it is a check-in that
    succeeds. *)
Definition issued_by (op : Operation) (st : State) : list str :=
  match op with
  | OpEntry data now =>
      match fst (create_entry data now st) with
      | Success body _ => [entry_ticket_id body]
      | Failure _ _ => []
      end
  | _ => []
  end.

(** The ticket ids handed out along a run, in order. *)
Fixpoint issued (ops : list Operation) (st : State) : list str :=
  match ops with
  | [] => []
  | op :: rest => issued_by op st ++ issued rest (step op st)
  end.

(** Every active ticket is stored under the id it carries, and that id
    was made from a sequence number that has already been used. *)
Definition ids_used (st : State) : Prop :=
  1 ≤ next_ticket_number st
  ∧ ∀ k t, active_tickets st !! k = Some t →
           ticket_id t = k
           ∧ ∃ n, 1 ≤ n < next_ticket_number st ∧ k = ticket_id_of n.

(** The counter agrees with the number of active tickets. *)
Definition synced (st : State) : Prop :=
  occupied_slots_count st = Z.of_nat (size (active_tickets st)).

(** The requests that touch the counter alone. *)
Definition is_webhook (op : Operation) : bool :=
  match op with
  | OpSlotMinus | OpSlotPlus => true
  | _ => false
  end.

(** Exactly the slots [1..k] are held. *)
Definition filled (k : Z) (st : State) : Prop :=
  ∀ i, held st i ↔ 1 ≤ i ≤ k.

(** Every character of [s] passes [p]. *)
Fixpoint all_chars (p : ascii → bool) (s : string) : bool :=
  match s with
  | EmptyString => true
  | String c s' => p c && all_chars p s'
  end.

(** A code point that [strip] never removes and [upper] never changes:
    ASCII, no white space, no small letter. *)
Definition plain (c : N) : bool :=
  ((c <? 128) && negb (isspace c) && negb ((97 <=? c) && (c <=? 122)))%N.

Definition plain_char (c : ascii) : bool := plain (N_of_ascii c).

(** A decimal digit. *)
Definition digit (c : ascii) : bool :=
  ((48 <=? N_of_ascii c) && (N_of_ascii c <=? 57))%N.

(** Strictly ascending order of slot number. *)
Definition slot_lt (a b : TicketData) : Prop :=
  data_slot_number a < data_slot_number b.

(** A series of check-in requests with the given plates and times. *)
Definition entries (reqs : list (str * Z)) : list Operation :=
  (λ r, OpEntry (Some (fst r)) (snd r)) <$> reqs.

(** The answer to a check-in that finds [k] cars in slots [1..k] and
    sequence number [k + 1]. *)
Definition entry_body_after (k : Z) (raw : str) (now : Z) : EntryBody :=
  {| entry_ticket_id := ticket_id_of (k + 1);
     entry_plate_number := upper (strip raw);
     entry_slot_number := k + 1;
     entry_entry_time := now;
     entry_available_slots := TOTAL_SLOTS - (k + 1) |}.

(** The ticket that [populate_initial_data] stores for an entry of its
    table, given the sequence number and the slot it finds. *)
Definition loaded_ticket (n slot : Z) (entry : str * Z) : Ticket :=
  {| ticket_id := ticket_id_of n;
     plate_number := upper (fst entry);
     entry_time := snd entry;
     slot_number := slot |}.

(** The state after one entry has been loaded into slot [slot]. *)
Definition load_one (slot : Z) (entry : str * Z) (st : State) : State :=
  {| active_tickets :=
       <[ticket_id_of (next_ticket_number st)
         := loaded_ticket (next_ticket_number st) slot entry]> (active_tickets st);
     occupied_slots_count := occupied_slots_count st;
     next_ticket_number := next_ticket_number st + 1 |}.

(** * Properties *)

(** ** Rounding to binary64 *)

Section Floats.

Local Open Scope Q_scope.

Lemma pow2_pos (e : Z) : 0 < 2 ^ e.
Proof. apply Qpower_0_lt. reflexivity. Qed.

Lemma pow2_plus (a b : Z) : 2 ^ (a + b) == 2 ^ a * 2 ^ b.
Proof. apply Qpower_plus. discriminate. Qed.

Lemma pow2_le (a b : Z) : (a <= b)%Z -> 2 ^ a <= 2 ^ b.
Proof. intros H. apply Qpower_le_compat_l; [exact H | discriminate]. Qed.

Lemma pow2_lt (a b : Z) : (a < b)%Z -> 2 ^ a < 2 ^ b.
Proof. intros H. apply Qpower_lt_compat_l; [exact H | reflexivity]. Qed.

Lemma pow2_lt_inv (a b : Z) : 2 ^ a < 2 ^ b -> (a < b)%Z.
Proof. intros H. apply (Qpower_lt_compat_l_inv 2); [exact H | reflexivity]. Qed.

Lemma pow2_succ (a : Z) : 2 ^ (a + 1) == 2 * 2 ^ a.
Proof. rewrite pow2_plus. change (2 ^ 1) with 2. ring. Qed.

Lemma pow2_cancel (a : Z) : 2 ^ a * 2 ^ (- a) == 1.
Proof. rewrite <- pow2_plus. rewrite Z.add_opp_diag_r. reflexivity. Qed.

Lemma pow2_Z (a : Z) : (0 <= a)%Z -> 2 ^ a == inject_Z (2 ^ a).
Proof. intros H. symmetry. apply (Zpower_Qpower 2 a H). Qed.

(** ** Rounding to the nearest integer, ties to even *)

Lemma round_half_even_cases (x : Q) :
  let f := Qfloor x in
  inject_Z f <= x < inject_Z f + 1
  /\ ((x - inject_Z f < 1 # 2 /\ round_half_even x = f)
      \/ (x - inject_Z f == 1 # 2 /\ round_half_even x = if Z.even f then f else (f + 1)%Z)
      \/ (1 # 2 < x - inject_Z f /\ round_half_even x = (f + 1)%Z)).
Proof.
  intros f. split.
  - split; [apply Qfloor_le|]. pose proof (Qlt_floor x) as H.
    rewrite inject_Z_plus in H. exact H.
  - unfold round_half_even. fold f.
    destruct (Qcompare_spec (x - inject_Z f) (1 # 2)); auto.
Qed.

Lemma round_half_even_ge (x : Q) (g : Z) : inject_Z g <= x -> (g <= round_half_even x)%Z.
Proof.
  intros H. apply Qfloor_resp_le in H. rewrite Qfloor_Z in H.
  destruct (round_half_even_cases x) as [_ [[_ ->]|[[_ ->]|[_ ->]]]];
    try destruct (Z.even _); lia.
Qed.

Lemma round_half_even_le (x : Q) (g : Z) : x <= inject_Z g -> (round_half_even x <= g)%Z.
Proof.
  intros H. destruct (round_half_even_cases x) as [[Hf _] Hc].
  assert (Hfg : (Qfloor x <= g)%Z) by (rewrite Zle_Qle; lra).
  assert (Hup : 0 < x - inject_Z (Qfloor x) -> (Qfloor x + 1 <= g)%Z).
  { intros Hpos. assert (Qfloor x < g)%Z; [|lia]. rewrite Zlt_Qlt. lra. }
  destruct Hc as [[_ ->]|[[He ->]|[Hg ->]]].
  - exact Hfg.
  - destruct (Z.even _); [exact Hfg|]. apply Hup. rewrite He. reflexivity.
  - apply Hup. lra.
Qed.

Lemma round_half_even_gt (x : Q) (g : Z) :
  inject_Z g + (1 # 2) < x -> (g + 1 <= round_half_even x)%Z.
Proof.
  intros H. destruct (round_half_even_cases x) as [[Hf Hf'] Hc].
  assert (Hg : (g <= Qfloor x)%Z).
  { assert (inject_Z g <= x) as Hx by lra.
    apply Qfloor_resp_le in Hx. rewrite Qfloor_Z in Hx. exact Hx. }
  destruct (Z.eq_dec g (Qfloor x)) as [->|Hne].
  - destruct Hc as [[Hl _]|[[He _]|[_ ->]]]; [lra|lra|lia].
  - destruct Hc as [[_ ->]|[[_ ->]|[_ ->]]]; try destruct (Z.even _); lia.
Qed.

Lemma round_half_even_mono (x y : Q) :
  x <= y -> (round_half_even x <= round_half_even y)%Z.
Proof.
  intros Hxy. pose proof (Qfloor_resp_le x y Hxy) as Hfl.
  destruct (round_half_even_cases x) as [[Hx Hx'] Hcx].
  destruct (round_half_even_cases y) as [[Hy Hy'] Hcy].
  destruct (Z.eq_dec (Qfloor x) (Qfloor y)) as [Heq|Hne].
  - rewrite <- Heq in *.
    destruct Hcx as [[Hx1 ->]|[[Hx1 ->]|[Hx1 ->]]];
      destruct Hcy as [[Hy1 ->]|[[Hy1 ->]|[Hy1 ->]]];
      try destruct (Z.even _); try lia; lra.
  - destruct Hcx as [[_ ->]|[[_ ->]|[_ ->]]];
      destruct Hcy as [[_ ->]|[[_ ->]|[_ ->]]];
      try destruct (Z.even (Qfloor x)); try destruct (Z.even (Qfloor y)); lia.
Qed.

Lemma round_half_even_comp (x y : Q) : x == y -> round_half_even x = round_half_even y.
Proof.
  intros H. apply Z.le_antisymm; apply round_half_even_mono; rewrite H; apply Qle_refl.
Qed.

(** ** The binade of a positive rational *)

Lemma Q_as_div (x : Q) : x == inject_Z (Qnum x) / inject_Z (Zpos (Qden x)).
Proof. destruct x as [n d]. cbn [Qnum Qden]. rewrite Qmake_Qdiv. reflexivity. Qed.

Lemma floor_log2_spec (x : Q) :
  0 < x -> 2 ^ floor_log2 x <= x /\ x < 2 ^ (floor_log2 x + 1).
Proof.
  intros Hx. unfold floor_log2.
  set (n := Qnum x). set (d := Zpos (Qden x)).
  set (a := Z.log2 n). set (b := Z.log2 d).
  assert (Hn : (0 < n)%Z).
  { unfold n. destruct x as [xn xd]. unfold Qlt in Hx. simpl in *. lia. }
  assert (Hd : (0 < d)%Z) by (unfold d; lia).
  destruct (Z.log2_spec n Hn) as [Ha1 Ha2]. fold a in Ha1, Ha2.
  destruct (Z.log2_spec d Hd) as [Hb1 Hb2]. fold b in Hb1, Hb2.
  pose proof (Z.log2_nonneg n) as Ha0. fold a in Ha0.
  pose proof (Z.log2_nonneg d) as Hb0. fold b in Hb0.
  assert (HN1 : 2 ^ a <= inject_Z n).
  { rewrite (pow2_Z a Ha0). rewrite <- Zle_Qle. exact Ha1. }
  assert (HN2 : inject_Z n < 2 * 2 ^ a).
  { rewrite <- pow2_succ. rewrite (pow2_Z (a + 1)) by lia.
    rewrite <- Zlt_Qlt. replace (a + 1)%Z with (Z.succ a) by lia. exact Ha2. }
  assert (HD1 : 2 ^ b <= inject_Z d).
  { rewrite (pow2_Z b Hb0). rewrite <- Zle_Qle. exact Hb1. }
  assert (HD2 : inject_Z d < 2 * 2 ^ b).
  { rewrite <- pow2_succ. rewrite (pow2_Z (b + 1)) by lia.
    rewrite <- Zlt_Qlt. replace (b + 1)%Z with (Z.succ b) by lia. exact Hb2. }
  pose proof (pow2_pos a) as Pa. pose proof (pow2_pos b) as Pb.
  assert (Hxd : x * inject_Z d == inject_Z n).
  { rewrite (Q_as_div x) at 1. fold n d. field. intros H. rewrite H in HD1. lra. }
  assert (Hab : 2 ^ (a - b) * 2 ^ b == 2 ^ a).
  { rewrite <- pow2_plus. replace (a - b + b)%Z with a by lia. reflexivity. }
  pose proof (pow2_pos (a - b)) as Pab.
  assert (Hlow : 2 ^ (a - b - 1) < x).
  { assert (2 * 2 ^ (a - b - 1) == 2 ^ (a - b)) as E.
    { rewrite <- pow2_succ. replace (a - b - 1 + 1)%Z with (a - b)%Z by lia. reflexivity. }
    pose proof (pow2_pos (a - b - 1)).
    assert (2 ^ (a - b - 1) * inject_Z d < x * inject_Z d); [|nra].
    rewrite Hxd. nra. }
  assert (Hhigh : x < 2 ^ (a - b + 1)).
  { rewrite pow2_succ.
    assert (x * inject_Z d < 2 * 2 ^ (a - b) * inject_Z d); [|nra].
    rewrite Hxd. nra. }
  destruct (Qle_bool (2 ^ (a - b)) x) eqn:Hc.
  - apply Qle_bool_iff in Hc. split; assumption.
  - assert (Hc' : x < 2 ^ (a - b)).
    { apply Qnot_le_lt. intros Hle. apply Qle_bool_iff in Hle. congruence. }
    split; [apply Qlt_le_weak; exact Hlow|].
    replace (a - b - 1 + 1)%Z with (a - b)%Z by lia. exact Hc'.
Qed.

Lemma floor_log2_mono (x y : Q) :
  0 < x -> x <= y -> (floor_log2 x <= floor_log2 y)%Z.
Proof.
  intros Hx Hxy.
  destruct (floor_log2_spec x Hx) as [Hx1 _].
  destruct (floor_log2_spec y ltac:(lra)) as [_ Hy2].
  assert (floor_log2 x < floor_log2 y + 1)%Z; [|lia].
  apply pow2_lt_inv. lra.
Qed.

Lemma float_exponent_mono (x y : Q) :
  0 < x -> x <= y -> (float_exponent x <= float_exponent y)%Z.
Proof.
  intros Hx Hxy. unfold float_exponent.
  pose proof (floor_log2_mono x y Hx Hxy). lia.
Qed.

(** The scaled value lies below [2^53], and from [2^52] on unless the
    exponent is the least one. *)
Lemma scaled_upper (x : Q) :
  0 < x -> x * 2 ^ (- float_exponent x) < 2 ^ 53.
Proof.
  intros Hx. destruct (floor_log2_spec x Hx) as [_ H2].
  set (e := float_exponent x).
  assert (He : (floor_log2 x + 1 <= e + 53)%Z) by (unfold e, float_exponent; lia).
  pose proof (pow2_le _ _ He) as Hle.
  assert (Hs : 2 ^ (e + 53) == 2 ^ 53 * 2 ^ e).
  { rewrite pow2_plus. ring. }
  pose proof (pow2_pos e). pose proof (pow2_pos (- e)).
  pose proof (pow2_cancel e) as Hc.
  assert (x < 2 ^ 53 * 2 ^ e) by lra.
  assert (x * 2 ^ (- e) < 2 ^ 53 * 2 ^ e * 2 ^ (- e)).
  { apply Qmult_lt_compat_r; assumption. }
  assert (2 ^ 53 * 2 ^ e * 2 ^ (- e) == 2 ^ 53) as E by (rewrite <- Qmult_assoc, Hc; ring).
  rewrite E in *. assumption.
Qed.

Lemma scaled_lower (x : Q) :
  0 < x -> (-1074 < float_exponent x)%Z ->
  2 ^ 52 <= x * 2 ^ (- float_exponent x).
Proof.
  intros Hx Hnorm. destruct (floor_log2_spec x Hx) as [H1 _].
  set (e := float_exponent x) in *.
  assert (He : (floor_log2 x = e + 52)%Z) by (unfold e, float_exponent in *; lia).
  rewrite He in H1.
  assert (Hs : 2 ^ (e + 52) == 2 ^ 52 * 2 ^ e).
  { rewrite pow2_plus. ring. }
  pose proof (pow2_pos e). pose proof (pow2_pos (- e)).
  pose proof (pow2_cancel e) as Hc.
  assert (2 ^ 52 * 2 ^ e * 2 ^ (- e) <= x * 2 ^ (- e)).
  { apply Qmult_le_compat_r; lra. }
  assert (2 ^ 52 * 2 ^ e * 2 ^ (- e) == 2 ^ 52) as E by (rewrite <- Qmult_assoc, Hc; ring).
  rewrite E in *. assumption.
Qed.

Lemma round_pos_nonneg (x : Q) : 0 < x -> 0 <= round_pos x.
Proof.
  intros Hx. unfold round_pos.
  pose proof (pow2_pos (float_exponent x)). pose proof (pow2_pos (- float_exponent x)).
  assert (0 <= round_half_even (x * 2 ^ (- float_exponent x)))%Z.
  { apply round_half_even_ge. change (inject_Z 0) with 0. nra. }
  assert (0 <= inject_Z (round_half_even (x * 2 ^ (- float_exponent x)))).
  { change 0 with (inject_Z 0). rewrite <- Zle_Qle. assumption. }
  nra.
Qed.

Lemma round_pos_mono (x y : Q) : 0 < x -> x <= y -> round_pos x <= round_pos y.
Proof.
  intros Hx Hxy. assert (Hy : 0 < y) by lra.
  pose proof (float_exponent_mono x y Hx Hxy) as He.
  unfold round_pos.
  set (ex := float_exponent x) in *. set (ey := float_exponent y) in *.
  pose proof (pow2_pos ex). pose proof (pow2_pos ey).
  pose proof (pow2_pos (- ex)). pose proof (pow2_pos (- ey)).
  destruct (Z.eq_dec ex ey) as [Heq|Hne].
  - rewrite <- Heq.
    assert (round_half_even (x * 2 ^ (- ex)) <= round_half_even (y * 2 ^ (- ex)))%Z.
    { apply round_half_even_mono. apply Qmult_le_compat_r; lra. }
    rewrite Zle_Qle in *. apply Qmult_le_compat_r; lra.
  - assert (Hlt : (ex + 1 <= ey)%Z) by lia.
    assert (Hnorm : (-1074 < ey)%Z) by (unfold ex, float_exponent in *; lia).
    assert (Hrx : (round_half_even (x * 2 ^ (- ex)) <= 2 ^ 53)%Z).
    { apply round_half_even_le. rewrite <- (pow2_Z 53) by lia.
      apply Qlt_le_weak. apply scaled_upper. exact Hx. }
    assert (Hry : (2 ^ 52 <= round_half_even (y * 2 ^ (- ey)))%Z).
    { apply round_half_even_ge. rewrite <- (pow2_Z 52) by lia.
      apply scaled_lower; assumption. }
    rewrite Zle_Qle in Hrx, Hry.
    rewrite <- (pow2_Z 53) in Hrx by lia. rewrite <- (pow2_Z 52) in Hry by lia.
    pose proof (pow2_le _ _ Hlt) as Hp. rewrite pow2_succ in Hp.
    assert (E53 : 2 ^ 53 == 2 * 2 ^ 52) by reflexivity.
    pose proof (pow2_pos 52).
    apply Qle_trans with (2 ^ 53 * 2 ^ ex); [apply Qmult_le_compat_r; lra|].
    apply Qle_trans with (2 ^ 52 * 2 ^ ey); [|apply Qmult_le_compat_r; lra].
    rewrite E53. nra.
Qed.

Lemma round_binary64_sign (x : Q) :
  (x <= 0 -> round_binary64 x <= 0) /\ (0 <= x -> 0 <= round_binary64 x).
Proof.
  unfold round_binary64. destruct (Qcompare_spec x 0) as [He|Hl|Hg].
  - split; intros; apply Qle_refl.
  - pose proof (round_pos_nonneg (- x) ltac:(lra)). split; intros; lra.
  - pose proof (round_pos_nonneg x Hg). split; intros; lra.
Qed.

Lemma round_binary64_mono (x y : Q) : x <= y -> round_binary64 x <= round_binary64 y.
Proof.
  intros Hxy. unfold round_binary64.
  destruct (Qcompare_spec x 0) as [Hx|Hx|Hx];
    destruct (Qcompare_spec y 0) as [Hy|Hy|Hy]; try lra.
  - apply round_pos_nonneg. exact Hy.
  - pose proof (round_pos_nonneg (- x) ltac:(lra)). lra.
  - pose proof (round_pos_mono (- y) (- x) ltac:(lra) ltac:(lra)). lra.
  - pose proof (round_pos_nonneg (- x) ltac:(lra)).
    pose proof (round_pos_nonneg y Hy). lra.
  - apply round_pos_mono; assumption.
Qed.

(** ** The hours of a stay *)

Lemma Qdiv_le_mono (x y c : Q) : 0 < c -> x <= y -> x / c <= y / c.
Proof.
  intros Hc Hxy. unfold Qdiv. apply Qmult_le_compat_r; [exact Hxy|].
  apply Qlt_le_weak, Qinv_lt_0_compat, Hc.
Qed.

Lemma hours_float_mono (us1 us2 : Z) :
  (us1 <= us2)%Z -> (hours_float us1 <= hours_float us2)%Z.
Proof.
  intros H. unfold hours_float, total_seconds, US_PER_SECOND. apply Qceiling_resp_le, round_binary64_mono.
  apply Qdiv_le_mono; [reflexivity|]. apply round_binary64_mono.
  apply Qdiv_le_mono; [reflexivity|]. rewrite <- Zle_Qle. exact H.
Qed.

Lemma hours_float_nonpos (us : Z) : (us <= 0)%Z -> (hours_float us <= 0)%Z.
Proof.
  intros H. unfold hours_float, total_seconds, US_PER_SECOND.
  assert (H1 : inject_Z us / inject_Z 1000000 <= 0).
  { apply Qle_shift_div_r; [reflexivity|]. rewrite Qmult_0_l.
    change 0 with (inject_Z 0). rewrite <- Zle_Qle. exact H. }
  apply round_binary64_sign in H1.
  assert (H2 : round_binary64 (inject_Z us / inject_Z 1000000) / inject_Z 3600 <= 0).
  { apply Qle_shift_div_r; [reflexivity|]. rewrite Qmult_0_l. exact H1. }
  apply round_binary64_sign in H2.
  apply Qceiling_resp_le in H2. change 0 with (inject_Z 0) in H2.
  rewrite Qceiling_Z in H2. exact H2.
Qed.

Lemma round_binary64_pos (x : Q) : 0 < x -> round_binary64 x = round_pos x.
Proof.
  intros Hx. unfold round_binary64.
  destruct (Qcompare_spec x 0) as [H|H|H]; [lra|lra|reflexivity].
Qed.

(** A positive value below [2^b] has its exponent at most [b - 53]
    (for [b] in the normal range). *)
Lemma float_exponent_upper (x : Q) (b : Z) :
  0 < x -> x < 2 ^ b -> (-1074 <= b - 53)%Z -> (float_exponent x <= b - 53)%Z.
Proof.
  intros Hx Hb Hn. destruct (floor_log2_spec x Hx) as [H1 _].
  assert (floor_log2 x < b)%Z by (apply pow2_lt_inv; lra).
  unfold float_exponent. lia.
Qed.

(** A value from [2^a] on has its exponent at least [a - 52]. *)
Lemma float_exponent_lower (x : Q) (a : Z) :
  2 ^ a <= x -> (a - 52 <= float_exponent x)%Z.
Proof.
  intros Ha. pose proof (pow2_pos a).
  destruct (floor_log2_spec x ltac:(lra)) as [_ H2].
  assert (a < floor_log2 x + 1)%Z by (apply pow2_lt_inv; lra).
  unfold float_exponent. lia.
Qed.

Lemma pow2_ge_3600 (d : Z) : 3600 <= 2 ^ d -> 4096 <= 2 ^ d.
Proof.
  intros H. destruct (Z_lt_le_dec d 12) as [Hlt|Hge].
  - assert (d <= 11)%Z as Hd by lia. apply pow2_le in Hd.
    change (2 ^ 11) with 2048 in Hd. lra.
  - apply pow2_le in Hge. change (2 ^ 12) with 4096 in Hge. exact Hge.
Qed.

(** With a non-positive exponent every integer is on the grid. *)
Lemma grid_integer (g e : Z) :
  (e <= 0)%Z -> inject_Z (g * 2 ^ (- e)) == inject_Z g * 2 ^ (- e).
Proof.
  intros He. rewrite inject_Z_mult. rewrite (pow2_Z (- e)) by lia. reflexivity.
Qed.

(** Rounding does not cross an integer from above. *)
Lemma round_pos_below (x : Q) (g : Z) :
  0 < x -> (float_exponent x <= 0)%Z -> x <= inject_Z g -> round_pos x <= inject_Z g.
Proof.
  intros Hx He Hg. unfold round_pos. set (e := float_exponent x) in *.
  pose proof (pow2_pos e) as Pe. pose proof (pow2_pos (- e)) as Pe'.
  pose proof (pow2_cancel e) as Hc. pose proof (grid_integer g e He) as HG.
  assert (Hm : (round_half_even (x * 2 ^ (- e)) <= g * 2 ^ (- e))%Z).
  { apply round_half_even_le. rewrite HG. apply Qmult_le_compat_r; lra. }
  rewrite Zle_Qle, HG in Hm.
  apply Qle_trans with (inject_Z g * 2 ^ (- e) * 2 ^ e);
    [apply Qmult_le_compat_r; lra|].
  rewrite <- Qmult_assoc, (Qmult_comm (2 ^ (- e))), Hc. lra.
Qed.

(** Rounding moves a value that is more than half a grid step above an
    integer at least one grid step above it. *)
Lemma round_pos_above (x c : Q) (g : Z) :
  0 < x -> (float_exponent x <= 0)%Z ->
  inject_Z g + c <= x -> 1 # 2 < c * 2 ^ (- float_exponent x) ->
  inject_Z g + 2 ^ float_exponent x <= round_pos x.
Proof.
  intros Hx He Hg Hc'. unfold round_pos. set (e := float_exponent x) in *.
  pose proof (pow2_pos e) as Pe. pose proof (pow2_pos (- e)) as Pe'.
  pose proof (pow2_cancel e) as Hc. pose proof (grid_integer g e He) as HG.
  assert (Hm : (g * 2 ^ (- e) + 1 <= round_half_even (x * 2 ^ (- e)))%Z).
  { apply round_half_even_gt. rewrite HG.
    assert ((inject_Z g + c) * 2 ^ (- e) <= x * 2 ^ (- e))
      by (apply Qmult_le_compat_r; lra).
    lra. }
  rewrite Zle_Qle, inject_Z_plus, HG in Hm.
  apply Qle_trans with ((inject_Z g * 2 ^ (- e) + inject_Z 1) * 2 ^ e);
    [|apply Qmult_le_compat_r; lra].
  change (inject_Z 1) with 1.
  assert (inject_Z g * 2 ^ (- e) * 2 ^ e == inject_Z g) as E.
  { rewrite <- Qmult_assoc, (Qmult_comm (2 ^ (- e))), Hc. ring. }
  rewrite Qmult_plus_distr_l, E. lra.
Qed.

Lemma round_pos_le_top (x : Q) :
  0 < x -> round_pos x <= 2 ^ 53 * 2 ^ float_exponent x.
Proof.
  intros Hx. unfold round_pos. set (e := float_exponent x).
  pose proof (pow2_pos e).
  assert (Hm : (round_half_even (x * 2 ^ (- e)) <= 2 ^ 53)%Z).
  { apply round_half_even_le. rewrite <- (pow2_Z 53) by lia.
    apply Qlt_le_weak, scaled_upper, Hx. }
  rewrite Zle_Qle in Hm. rewrite <- (pow2_Z 53) in Hm by lia.
  apply Qmult_le_compat_r; lra.
Qed.

(** Below [2^34] seconds the two roundings never cross a whole hour. *)
Lemma hours_float_exact (us k : Z) :
  (0 < us)%Z -> (us < EXACT_RANGE)%Z ->
  ((k - 1) * US_PER_HOUR < us <= k * US_PER_HOUR)%Z ->
  hours_float us = k.
Proof.
  intros Hpos Hbound [Hlow Hhigh].
  unfold EXACT_RANGE, seconds, US_PER_HOUR, US_PER_SECOND in *.
  set (J := (k - 1)%Z) in *.
  assert (HJ : (0 <= J)%Z) by lia.
  assert (Hk : (k <= 2 ^ 23)%Z) by lia.
  unfold hours_float, total_seconds, US_PER_SECOND.
  set (x1 := inject_Z us / inject_Z 1000000).
  (* the first quotient *)
  assert (Hx1 : x1 * 1000000 == inject_Z us).
  { unfold x1. field. }
  assert (Hus1 : inject_Z (3600 * J * 1000000 + 1) <= inject_Z us)
    by (rewrite <- Zle_Qle; lia).
  assert (Hus2 : inject_Z us <= inject_Z (k * 3600 * 1000000))
    by (rewrite <- Zle_Qle; lia).
  assert (Hus3 : inject_Z us < inject_Z (2 ^ 34 * 1000000))
    by (rewrite <- Zlt_Qlt; lia).
  rewrite inject_Z_plus, !inject_Z_mult in Hus1. rewrite !inject_Z_mult in Hus2.
  rewrite !inject_Z_mult in Hus3.
  change (inject_Z 1000000) with 1000000 in *. change (inject_Z 3600) with 3600 in *.
  change (inject_Z 1) with 1 in *. change (inject_Z (2 ^ 34)) with (2 ^ 34) in Hus3.
  assert (Hx1low : inject_Z (3600 * J) + (1 # 1000000) <= x1).
  { rewrite inject_Z_mult. change (inject_Z 3600) with 3600. lra. }
  assert (Hx1high : x1 <= inject_Z (3600 * k)).
  { rewrite inject_Z_mult. change (inject_Z 3600) with 3600. lra. }
  assert (Hx1pos : 0 < x1).
  { assert (0 <= inject_Z (3600 * J)); [|lra].
    change 0 with (inject_Z 0). rewrite <- Zle_Qle. lia. }
  assert (Hx1top : x1 < 2 ^ 34) by lra.
  rewrite (round_binary64_pos x1 Hx1pos).
  set (e1 := float_exponent x1).
  assert (He1 : (e1 <= -19)%Z).
  { pose proof (float_exponent_upper x1 34 Hx1pos Hx1top ltac:(lia)). lia. }
  assert (He1' : (-72 <= e1)%Z).
  { assert (2 ^ (-20) <= x1) as Hsmall.
    { assert (0 <= inject_Z (3600 * J)).
      { change 0 with (inject_Z 0). rewrite <- Zle_Qle. lia. }
      assert (2 ^ (-20) <= 1 # 1000000) by (vm_compute; discriminate). lra. }
    pose proof (float_exponent_lower x1 (-20) Hsmall). lia. }
  pose proof (pow2_pos e1) as Pe1.
  assert (Hp1 : 2 ^ 19 <= 2 ^ (- e1)) by (apply pow2_le; lia).
  change (2 ^ 19) with 524288 in Hp1.
  set (t := round_pos x1).
  assert (Ht1 : inject_Z (3600 * J) + 2 ^ e1 <= t).
  { apply (round_pos_above x1 (1 # 1000000)); [exact Hx1pos|fold e1; lia|exact Hx1low|].
    fold e1. lra. }
  assert (Ht2 : t <= inject_Z (3600 * k)).
  { apply round_pos_below; [exact Hx1pos|fold e1; lia|exact Hx1high]. }
  assert (Ht3 : t <= 2 ^ 53 * 2 ^ e1) by (apply round_pos_le_top; exact Hx1pos).
  assert (HJq : 0 <= inject_Z J).
  { change 0 with (inject_Z 0). rewrite <- Zle_Qle. exact HJ. }
  rewrite inject_Z_mult in Ht1, Ht2. change (inject_Z 3600) with 3600 in Ht1, Ht2.
  (* the second quotient *)
  set (x2 := t / 3600).
  assert (Hx2 : x2 * 3600 == t) by (unfold x2; field).
  assert (Hx2pos : 0 < x2) by lra.
  assert (Hx2low : inject_Z J + 2 ^ e1 / 3600 <= x2).
  { assert ((inject_Z J + 2 ^ e1 / 3600) * 3600 == 3600 * inject_Z J + 2 ^ e1)
      by field. lra. }
  assert (Hx2high : x2 <= inject_Z k) by lra.
  rewrite (round_binary64_pos x2 Hx2pos).
  set (e2 := float_exponent x2).
  assert (He2 : (e2 <= 0)%Z).
  { assert (x2 < 2 ^ 24) as Htop.
    { assert (inject_Z k <= inject_Z (2 ^ 23)) by (rewrite <- Zle_Qle; exact Hk).
      change (inject_Z (2 ^ 23)) with 8388608 in *. change (2 ^ 24) with 16777216. lra. }
    pose proof (float_exponent_upper x2 24 Hx2pos Htop ltac:(lia)). lia. }
  assert (He2' : (-1074 < e2)%Z).
  { assert (2 ^ (-84) <= x2) as Hsmall.
    { assert (2 ^ (-72) <= 2 ^ e1) by (apply pow2_le; lia).
      assert (2 ^ (-84) * 3600 <= 2 ^ (-72)) by (vm_compute; discriminate).
      lra. }
    pose proof (float_exponent_lower x2 (-84) Hsmall) as Hl. fold e2 in Hl. lia. }
  pose proof (pow2_pos e2) as Pe2. pose proof (pow2_pos (- e2)) as Pe2'.
  pose proof (pow2_cancel e2) as Hc2.
  (* one grid step of [t] is more than 1800 grid steps of the quotient *)
  assert (Hsteps : 2048 <= 2 ^ e1 * 2 ^ (- e2)).
  { pose proof (scaled_lower x2 Hx2pos He2') as Hl. fold e2 in Hl.
    assert (3600 <= 2 ^ (e1 - e2 + 1)) as Hd.
    { assert (2 ^ (e1 - e2 + 1) == 2 * (2 ^ e1 * 2 ^ (- e2))) as E.
      { rewrite pow2_succ. replace (e1 - e2)%Z with (e1 + - e2)%Z by lia.
        rewrite pow2_plus. reflexivity. }
      rewrite E.
      assert (x2 * 3600 * 2 ^ (- e2) <= 2 ^ 53 * 2 ^ e1 * 2 ^ (- e2))
        by (apply Qmult_le_compat_r; lra).
      assert (2 ^ 52 * 3600 <= x2 * 2 ^ (- e2) * 3600)
        by (apply Qmult_le_compat_r; lra).
      change (2 ^ 52) with 4503599627370496 in *.
      change (2 ^ 53) with 9007199254740992 in *.
      nra. }
    apply pow2_ge_3600 in Hd.
    assert (2 ^ (e1 - e2 + 1) == 2 * (2 ^ e1 * 2 ^ (- e2))) as E.
    { rewrite pow2_succ. replace (e1 - e2)%Z with (e1 + - e2)%Z by lia.
      rewrite pow2_plus. reflexivity. }
    rewrite E in Hd. lra. }
  set (q := round_pos x2).
  assert (Hq1 : inject_Z J + 2 ^ e2 <= q).
  { apply (round_pos_above x2 (2 ^ e1 / 3600)); [exact Hx2pos|exact He2|exact Hx2low|].
    fold e2.
    assert (2 ^ e1 / 3600 * 2 ^ (- e2) * 3600 == 2 ^ e1 * 2 ^ (- e2)) by field.
    lra. }
  assert (Hq2 : q <= inject_Z k).
  { apply round_pos_below; [exact Hx2pos|exact He2|exact Hx2high]. }
  apply Z.le_antisymm.
  - apply Qceiling_resp_le in Hq2. rewrite Qceiling_Z in Hq2. exact Hq2.
  - assert (inject_Z J < inject_Z (Qceiling q)) as Hc.
    { pose proof (Qle_ceiling q). lra. }
    rewrite <- Zlt_Qlt in Hc. lia.
Qed.

End Floats.

(** ** Cost computation *)

Section Cost.

Lemma calculate_cost_hours (entry_time exit_time : Z) :
  calculate_cost entry_time exit_time
  = (Z.max 1 (hours_float (exit_time - entry_time)),
     Z.max 1 (hours_float (exit_time - entry_time)) * HOURLY_RATE).
Proof.
  unfold calculate_cost. fold (hours_float (exit_time - entry_time)).
  destruct (Z.ltb_spec (hours_float (exit_time - entry_time)) 1).
  - rewrite Z.max_l by lia. reflexivity.
  - rewrite Z.max_r by lia. reflexivity.
Qed.

(** The ceiling is the least number of whole hours covering [a]. *)
Lemma ceil_div_bounds (a b : Z) :
  0 < b → (ceil_div a b - 1) * b < a ≤ ceil_div a b * b.
Proof.
  intros Hb. unfold ceil_div.
  pose proof (Z.div_mod (a + b - 1) b ltac:(lia)) as H1.
  pose proof (Z.mod_pos_bound (a + b - 1) b Hb) as H2.
  nia.
Qed.

Lemma ceil_div_mono (a1 a2 b : Z) :
  0 < b → a1 ≤ a2 → ceil_div a1 b ≤ ceil_div a2 b.
Proof.
  intros Hb Ha. unfold ceil_div. apply Z.div_le_mono; lia.
Qed.

(** Up to [EXACT_RANGE] the floats lose nothing: the code computes the
    billing rule of the specification. *)
Lemma calculate_cost_eq (entry_time exit_time : Z) :
  exit_time - entry_time < EXACT_RANGE →
  calculate_cost entry_time exit_time
  = compute_cost_spec (exit_time - entry_time).
Proof.
  intros Hrange. rewrite calculate_cost_hours. unfold compute_cost_spec.
  set (d := exit_time - entry_time) in *.
  pose proof (ceil_div_bounds d US_PER_HOUR eq_refl) as Hb.
  destruct (Z.le_gt_cases d 0) as [Hd|Hd].
  - pose proof (hours_float_nonpos d Hd).
    assert (ceil_div d US_PER_HOUR ≤ 0)
      by (unfold US_PER_HOUR, US_PER_SECOND in *; nia).
    rewrite !Z.max_l by lia. reflexivity.
  - rewrite (hours_float_exact d (ceil_div d US_PER_HOUR)) by (done || lia).
    reflexivity.
Qed.

(** The hours and the cost never go down when the car stays longer. *)
Lemma calculate_cost_le (entry_time exit1 exit2 : Z) :
  exit1 ≤ exit2 →
  fst (calculate_cost entry_time exit1) ≤ fst (calculate_cost entry_time exit2)
  ∧ snd (calculate_cost entry_time exit1) ≤ snd (calculate_cost entry_time exit2).
Proof.
  intros Hle. rewrite !calculate_cost_hours. cbn [fst snd].
  pose proof (hours_float_mono (exit1 - entry_time) (exit2 - entry_time)
                ltac:(lia)).
  unfold HOURLY_RATE. lia.
Qed.

End Cost.

(** C1. The claim that [calculate_cost] returns the ceiling of the elapsed
    hours (at least one) for every entry and exit time, with the cost the
    hours times [HOURLY_RATE], fails on the code for a long stay: the car
    that entered on 2025-10-17 at 08:00 (Asia/Jakarta) and leaves 4772186
    hours and one microsecond later is billed 4772186 hours, which do not
    cover its stay, where the ceiling is 4772187. The two float roundings
    of [total_seconds() / 3600] lose the microsecond. *)
Theorem calculate_cost_drops_started_hour :
  let entry_time := 1760662800000000 in
  let exit_time := entry_time + hours 4772186 + 1 in
  calculate_cost entry_time exit_time = (4772186, 4772186 * HOURLY_RATE)
  ∧ compute_cost_spec (exit_time - entry_time) = (4772187, 4772187 * HOURLY_RATE)
  ∧ fst (calculate_cost entry_time exit_time) * US_PER_HOUR
    < exit_time - entry_time.
Proof. vm_compute. repeat split. Qed.

(** ** Strings *)

Section Strings.

Lemma py_cons (a : ascii) (s : string) : py (String a s) = N_of_ascii a :: py s.
Proof. reflexivity. Qed.

Lemma py_app (s1 s2 : string) : py (s1 +:+ s2) = py s1 ++ py s2.
Proof.
  induction s1 as [|a s1 IH]; [done|].
  change (String a s1 +:+ s2) with (String a (s1 +:+ s2)).
  by rewrite !py_cons, IH.
Qed.

Lemma py_inj (s1 s2 : string) : py s1 = py s2 → s1 = s2.
Proof.
  revert s2. induction s1 as [|a s1 IH]; intros [|b s2]; try done.
  rewrite !py_cons. intros [= Hab Hs]. f_equal; [|by apply IH].
  by rewrite <- (ascii_N_embedding a), Hab, ascii_N_embedding.
Qed.

Lemma all_chars_append (p : ascii → bool) (s1 s2 : string) :
  all_chars p (s1 +:+ s2) = all_chars p s1 && all_chars p s2.
Proof.
  induction s1 as [|a s1 IH]; [done|].
  change (String a s1 +:+ s2) with (String a (s1 +:+ s2)).
  cbn [all_chars]. rewrite IH. by destruct (p a).
Qed.

(** The decimal digits that [pretty] writes all pass a test that the ten
    digits pass. *)
Lemma all_chars_pretty_N_go (p : ascii → bool) (x : N) (s : string) :
  (∀ d, p (pretty_N_char d) = true) →
  all_chars p s = true → all_chars p (pretty_N_go x s) = true.
Proof.
  intros Hp. revert s. induction (N.lt_wf_0 x) as [x _ IH]; intros s Hs.
  destruct (decide (x = 0%N)) as [->|Hx]; [by rewrite pretty_N_go_0|].
  rewrite pretty_N_go_step by lia. apply IH; [apply N.div_lt; lia|].
  cbn [all_chars]. by rewrite Hp, Hs.
Qed.

Lemma all_chars_pretty (p : ascii → bool) (x : N) :
  (∀ d, p (pretty_N_char d) = true) → all_chars p (pretty x) = true.
Proof.
  intros Hp. unfold pretty, pretty_N. case_decide.
  - change (p (pretty_N_char 0) && true = true). by rewrite Hp.
  - by apply all_chars_pretty_N_go.
Qed.

Lemma all_chars_zfill (p : ascii → bool) (width : nat) (s : string) :
  p "0"%char = true →
  all_chars p s = true → all_chars p (zfill width s) = true.
Proof.
  intros Hp Hs. unfold zfill. rewrite all_chars_append, Hs, andb_true_r.
  induction (width - String.length s)%nat as [|k IH]; [done|].
  cbn [zeros all_chars]. by rewrite Hp, IH.
Qed.

Lemma all_chars_py (q : N → bool) (s : string) :
  all_chars (λ a, q (N_of_ascii a)) s = true → Forall (λ c, q c = true) (py s).
Proof.
  induction s as [|a s IH]; [constructor|].
  cbn [all_chars]. intros [Ha Hs]%andb_prop. rewrite py_cons.
  constructor; [done|by apply IH].
Qed.

Lemma plain_pretty_N_char (d : N) : plain_char (pretty_N_char d) = true.
Proof. unfold pretty_N_char. by repeat case_match. Qed.

Lemma digit_pretty_N_char (d : N) : digit (pretty_N_char d) = true.
Proof. unfold pretty_N_char. by repeat case_match. Qed.

(** [format_04d] of a number that is not negative writes digits only. *)
Lemma digit_format_04d (n : Z) : 0 ≤ n → all_chars digit (format_04d n) = true.
Proof.
  intros Hn. unfold format_04d. destruct (Z.ltb_spec n 0); [lia|].
  apply all_chars_zfill; [done|]. apply all_chars_pretty, digit_pretty_N_char.
Qed.

Lemma plain_format_04d (n : Z) : all_chars plain_char (format_04d n) = true.
Proof.
  unfold format_04d. destruct (n <? 0).
  - change ("-" +:+ ?s) with (String "-" s). cbn [all_chars].
    rewrite all_chars_zfill; [done|done|].
    apply all_chars_pretty, plain_pretty_N_char.
  - apply all_chars_zfill; [done|].
    apply all_chars_pretty, plain_pretty_N_char.
Qed.

Lemma plain_ticket_id_of (n : Z) : Forall (λ c, plain c = true) (ticket_id_of n).
Proof.
  unfold ticket_id_of. apply all_chars_py.
  change ("T" +:+ ?s) with (String "T" s). cbn [all_chars].
  fold plain_char. by rewrite plain_format_04d.
Qed.

Lemma lstrip_plain (s : str) : Forall (λ c, plain c = true) s → lstrip s = s.
Proof.
  destruct 1 as [|c s Hc _]; [done|]. cbn [lstrip]. unfold plain in Hc.
  by destruct (isspace c); [rewrite andb_false_r in Hc|].
Qed.

Lemma strip_plain (s : str) : Forall (λ c, plain c = true) s → strip s = s.
Proof.
  intros Hs. unfold strip, rstrip. rewrite (lstrip_plain s) by done.
  rewrite lstrip_plain by by apply Forall_reverse.
  apply reverse_involutive.
Qed.

Lemma upper_plain (s : str) : Forall (λ c, plain c = true) s → upper s = s.
Proof.
  induction 1 as [|c s Hc _ IH]; [done|]. cbn [upper]. rewrite IH.
  unfold plain in Hc. unfold upper_char.
  destruct (c <? 128)%N; [|done].
  by destruct ((97 <=? c) && (c <=? 122))%N; [rewrite andb_false_r in Hc|].
Qed.

(** An id as the ledger makes it is what the check-out looks up. *)
Lemma ticket_id_normal (n : Z) : upper (strip (ticket_id_of n)) = ticket_id_of n.
Proof.
  rewrite strip_plain by apply plain_ticket_id_of.
  apply upper_plain, plain_ticket_id_of.
Qed.

Lemma digit_value_pretty_N_char (d : N) :
  (d < 10)%N → digit_value (N_of_ascii (pretty_N_char d)) = d.
Proof.
  intros Hd.
  assert (d = 0 ∨ d = 1 ∨ d = 2 ∨ d = 3 ∨ d = 4 ∨ d = 5 ∨ d = 6 ∨ d = 7
          ∨ d = 8 ∨ d = 9)%N as Hcases by lia.
  repeat (destruct Hcases as [->|Hcases]; [reflexivity|]). by subst.
Qed.

(** Reading back the digits that [pretty] writes in front of [s]. *)
Lemma read_digits_pretty_N_go (x : N) (s : string) :
  read_digits 0 (py (pretty_N_go x s)) = read_digits x (py s).
Proof.
  revert s. induction (N.lt_wf_0 x) as [x _ IH]; intros s.
  destruct (decide (x = 0%N)) as [->|Hx].
  - by rewrite pretty_N_go_0.
  - rewrite pretty_N_go_step by lia.
    rewrite IH by (apply N.div_lt; lia).
    rewrite py_cons. cbn [read_digits].
    rewrite digit_value_pretty_N_char by (apply N.mod_lt; lia).
    f_equal. pose proof (N.div_mod x 10 ltac:(lia)). lia.
Qed.

Lemma read_digits_pretty (x : N) : read_digits 0 (py (pretty x)) = x.
Proof.
  unfold pretty, pretty_N. case_decide as Hx.
  - by subst.
  - by rewrite read_digits_pretty_N_go.
Qed.

Lemma read_digits_zfill (width : nat) (s : string) :
  read_digits 0 (py (zfill width s)) = read_digits 0 (py s).
Proof.
  unfold zfill. induction (width - String.length s)%nat as [|k IH]; [done|].
  exact IH.
Qed.

Lemma read_digits_format_04d (n : Z) :
  0 ≤ n → read_digits 0 (py (format_04d n)) = Z.to_N n.
Proof.
  intros Hn. unfold format_04d.
  destruct (Z.ltb_spec n 0); [lia|].
  by rewrite read_digits_zfill, read_digits_pretty.
Qed.

Lemma ticket_number_ticket_id_of (n : Z) :
  0 ≤ n → ticket_number (ticket_id_of n) = Some n.
Proof.
  intros Hn. change (ticket_id_of n) with (84%N :: py (format_04d n)).
  cbn [ticket_number]. rewrite N.eqb_refl, read_digits_format_04d by done.
  f_equal. lia.
Qed.

(** The format tells any two numbers apart, negative ones included. *)
Lemma format_04d_inj (n m : Z) : format_04d n = format_04d m → n = m.
Proof.
  intros Heq.
  destruct (Z.lt_ge_cases n 0) as [Hn|Hn], (Z.lt_ge_cases m 0) as [Hm|Hm].
  - unfold format_04d in Heq.
    destruct (Z.ltb_spec n 0); [|lia]. destruct (Z.ltb_spec m 0); [|lia].
    change ("-" +:+ ?s) with (String "-" s) in Heq. injection Heq as Heq.
    apply (f_equal (λ s, read_digits 0 (py s))) in Heq.
    rewrite !read_digits_zfill, !read_digits_pretty in Heq. lia.
  - pose proof (digit_format_04d m Hm) as Hd. rewrite <- Heq in Hd.
    unfold format_04d in Hd. destruct (Z.ltb_spec n 0); [|lia]. done.
  - pose proof (digit_format_04d n Hn) as Hd. rewrite Heq in Hd.
    unfold format_04d in Hd. destruct (Z.ltb_spec m 0); [|lia]. done.
  - apply (f_equal (λ s, read_digits 0 (py s))) in Heq.
    rewrite !read_digits_format_04d in Heq by done. lia.
Qed.

Lemma ticket_id_of_inj (n m : Z) : ticket_id_of n = ticket_id_of m → n = m.
Proof.
  unfold ticket_id_of. intros Heq%py_inj.
  change ("T" +:+ ?s) with (String "T" s) in Heq. injection Heq as Heq.
  by apply format_04d_inj.
Qed.

(** Below 10000 the format is exactly four digits. *)
Lemma format_04d_four_digits (n : Z) :
  0 ≤ n < 10000 → format_04d n = four_digits n.
Proof.
  intros Hn.
  assert (Forall (λ n, format_04d n = four_digits n) (seqZ 0 10000)) as Hall.
  { apply (bool_decide_unpack _). by vm_compute. }
  rewrite Forall_forall in Hall. apply Hall, elem_of_seqZ. lia.
Qed.

End Strings.

(** ** The handlers as functions of the state *)

Section Handlers.

Lemma generate_ticket_id_eq (st : State) :
  generate_ticket_id st
  = (py ("T" +:+ format_04d (next_ticket_number st)),
     {| active_tickets := active_tickets st;
        occupied_slots_count := occupied_slots_count st;
        next_ticket_number := next_ticket_number st + 1 |}).
Proof. reflexivity. Qed.

Lemma create_entry_missing (now : Z) (st : State) :
  create_entry None now st = (ValidationError_plate, st).
Proof. reflexivity. Qed.

Lemma create_entry_blank (raw : str) (now : Z) (st : State) :
  strip raw = [] →
  create_entry (Some raw) now st = (ValidationError_plate, st).
Proof.
  intros Hblank. unfold create_entry.
  destruct (decide (strip raw = [])); [reflexivity | contradiction].
Qed.

Lemma create_entry_full (raw : str) (now : Z) (st : State) :
  strip raw ≠ [] →
  TOTAL_SLOTS ≤ occupied_slots_count st →
  create_entry (Some raw) now st = (LotFullError, st).
Proof.
  intros Hplate Hfull. unfold create_entry.
  destruct (decide (strip raw = [])); [contradiction|].
  unfold mbind, M_bind, bind, get.
  destruct (Z.leb_spec TOTAL_SLOTS (occupied_slots_count st)); [reflexivity | lia].
Qed.

Lemma create_entry_desync (raw : str) (now : Z) (st : State) :
  strip raw ≠ [] →
  occupied_slots_count st < TOTAL_SLOTS →
  find_next_available_slot st = None →
  create_entry (Some raw) now st
  = (LotFullError_desync,
     set_occupied_slots_count (Z.of_nat (size (active_tickets st))) st).
Proof.
  intros Hplate Hroom Hnone. unfold create_entry.
  destruct (decide (strip raw = [])); [contradiction|].
  unfold mbind, M_bind, bind, get.
  destruct (Z.leb_spec TOTAL_SLOTS (occupied_slots_count st)); [lia|].
  rewrite Hnone. reflexivity.
Qed.

Lemma create_entry_success (raw : str) (now : Z) (st : State) (slot : Z) :
  strip raw ≠ [] →
  occupied_slots_count st < TOTAL_SLOTS →
  find_next_available_slot st = Some slot →
  create_entry (Some raw) now st
  = (Success {| entry_ticket_id := py ("T" +:+ format_04d (next_ticket_number st));
                entry_plate_number := upper (strip raw);
                entry_slot_number := slot;
                entry_entry_time := now;
                entry_available_slots :=
                  TOTAL_SLOTS - (occupied_slots_count st + 1) |} 201,
     {| active_tickets :=
          <[py ("T" +:+ format_04d (next_ticket_number st))
            := ticket_of_entry raw now st slot]> (active_tickets st);
        occupied_slots_count := occupied_slots_count st + 1;
        next_ticket_number := next_ticket_number st + 1 |}).
Proof.
  intros Hplate Hroom Hslot. unfold create_entry.
  destruct (decide (strip raw = [])); [contradiction|].
  unfold mbind, M_bind, bind, get.
  destruct (Z.leb_spec TOTAL_SLOTS (occupied_slots_count st)); [lia|].
  rewrite Hslot. reflexivity.
Qed.

Lemma create_entry_cases (data : option str) (now : Z) (st : State) :
  entry_outcome data now st (create_entry data now st).
Proof.
  destruct data as [raw|].
  - destruct (decide (strip raw = [])) as [Hb|Hb].
    { rewrite create_entry_blank by done. constructor. by intros ? [= <-]. }
    destruct (Z.le_gt_cases TOTAL_SLOTS (occupied_slots_count st)) as [Hf|Hf].
    { rewrite create_entry_full by done. by econstructor. }
    destruct (find_next_available_slot st) as [slot|] eqn:Hslot.
    + rewrite (create_entry_success _ _ _ slot) by done. by econstructor.
    + rewrite create_entry_desync by done. by econstructor.
  - rewrite create_entry_missing. constructor. by intros ? [=].
Qed.

Lemma create_exit_not_found (raw : str) (now : Z) (st : State) :
  active_tickets st !! upper (strip raw) = None →
  create_exit (Some raw) now st = (TicketNotFoundError, st).
Proof.
  intros Hnone. unfold create_exit, mbind, M_bind, bind, get.
  rewrite Hnone. reflexivity.
Qed.

Lemma create_exit_found (raw : str) (now : Z) (st : State) (ticket : Ticket) :
  active_tickets st !! upper (strip raw) = Some ticket →
  snd (create_exit (Some raw) now st)
  = {| active_tickets := delete (upper (strip raw)) (active_tickets st);
       occupied_slots_count :=
         if 0 <? occupied_slots_count st
         then occupied_slots_count st - 1 else occupied_slots_count st;
       next_ticket_number := next_ticket_number st |}.
Proof.
  intros Hsome. unfold create_exit, mbind, M_bind, bind, get.
  rewrite Hsome. destruct (calculate_cost _ _) as [h c]. simpl.
  destruct (0 <? occupied_slots_count st); reflexivity.
Qed.

Lemma webhook_slot_minus_eq (st : State) :
  webhook_slot_minus st
  = let n := if 0 <? occupied_slots_count st
             then occupied_slots_count st - 1 else occupied_slots_count st in
    (n, set_occupied_slots_count n st).
Proof.
  unfold webhook_slot_minus, mbind, M_bind, bind, get.
  destruct (0 <? occupied_slots_count st); [reflexivity|].
  destruct st; reflexivity.
Qed.

Lemma webhook_slot_plus_eq (st : State) :
  webhook_slot_plus st
  = let n := if occupied_slots_count st <? TOTAL_SLOTS
             then occupied_slots_count st + 1 else occupied_slots_count st in
    (n, set_occupied_slots_count n st).
Proof.
  unfold webhook_slot_plus, mbind, M_bind, bind, get.
  destruct (occupied_slots_count st <? TOTAL_SLOTS); [reflexivity|].
  destruct st; reflexivity.
Qed.

End Handlers.

(** ** Slot assignment *)

Section Slots.

Lemma elem_of_used_slots (st : State) (i : Z) : i ∈ used_slots st ↔ held st i.
Proof.
  unfold used_slots, held. rewrite elem_of_map_img. split.
  - intros [k Hk]. rewrite lookup_fmap in Hk.
    destruct (active_tickets st !! k) as [t|] eqn:Ht; simplify_eq/=. eauto.
  - intros (k & t & Ht & <-). exists k. by rewrite lookup_fmap, Ht.
Qed.

(** The loop returns the first candidate that is not in [used]. *)
Lemma first_unused_seqZ (used : gset Z) (n : nat) (a : Z) :
  match first_unused used (seqZ a (Z.of_nat n)) with
  | Some i =>
      a ≤ i < a + Z.of_nat n ∧ (i ∉ used) ∧ (∀ j, a ≤ j < i → j ∈ used)
  | None => ∀ j, a ≤ j < a + Z.of_nat n → j ∈ used
  end.
Proof.
  revert a. induction n as [|n IH]; intros a.
  - simpl. intros j Hj. lia.
  - rewrite seqZ_cons by lia. simpl.
    replace (Z.pred (Z.of_nat (S n))) with (Z.of_nat n) by lia.
    destruct (decide (a ∉ used)) as [Hfree|Hused].
    + split; [lia|]. split; [done|]. intros j Hj. lia.
    + apply dec_stable in Hused. specialize (IH (Z.succ a)).
      destruct (first_unused used (seqZ (Z.succ a) (Z.of_nat n))) as [i|].
      * destruct IH as (Hi & Hfree & Hbelow). split; [lia|]. split; [done|].
        intros j Hj. destruct (decide (j = a)) as [->|]; [done|].
        apply Hbelow. lia.
      * intros j Hj. destruct (decide (j = a)) as [->|]; [done|].
        apply IH. lia.
Qed.

Lemma find_next_available_slot_spec (st : State) :
  match find_next_available_slot st with
  | Some i => 1 ≤ i ≤ TOTAL_SLOTS ∧ ¬ held st i ∧ ∀ j, 1 ≤ j < i → held st j
  | None => ∀ j, 1 ≤ j ≤ TOTAL_SLOTS → held st j
  end.
Proof.
  unfold find_next_available_slot, range.
  pose proof (first_unused_seqZ (used_slots st) (Z.to_nat TOTAL_SLOTS) 1) as H.
  replace (TOTAL_SLOTS + 1 - 1) with (Z.of_nat (Z.to_nat TOTAL_SLOTS))
    by (unfold TOTAL_SLOTS; lia).
  destruct (first_unused _ _) as [i|].
  - destruct H as (Hi & Hfree & Hbelow).
    split; [unfold TOTAL_SLOTS in *; lia|].
    split; [by rewrite <- elem_of_used_slots|].
    intros j Hj. apply elem_of_used_slots, Hbelow. lia.
  - intros j Hj. apply elem_of_used_slots, H. unfold TOTAL_SLOTS in *. lia.
Qed.

End Slots.

(** C2. [find_next_available_slot] returns the smallest slot number of
    [1..TOTAL_SLOTS] that no active ticket holds (every smaller one is
    held), and returns [None] exactly when every slot number of
    [1..TOTAL_SLOTS] is held by an active ticket. *)
Theorem find_next_available_slot_lowest_free (st : State) :
  (∀ i, find_next_available_slot st = Some i ↔
        1 ≤ i ≤ TOTAL_SLOTS ∧ ¬ held st i ∧ ∀ j, 1 ≤ j < i → held st j)
  ∧ (find_next_available_slot st = None ↔
     ∀ j, 1 ≤ j ≤ TOTAL_SLOTS → held st j).
Proof.
  pose proof (find_next_available_slot_spec st) as H.
  destruct (find_next_available_slot st) as [i|]; split.
  - intros i'. split.
    + intros [= <-]. exact H.
    + intros (Hi' & Hfree' & Hbelow'). destruct H as (Hi & Hfree & Hbelow).
      f_equal. destruct (Z.lt_trichotomy i i') as [Hlt|[->|Hgt]]; [|done|].
      * destruct Hfree. apply Hbelow'. lia.
      * destruct Hfree'. apply Hbelow. lia.
  - split; [done|]. intros Hall. destruct H as (Hi & Hfree & _).
    destruct Hfree. by apply Hall.
  - intros i. split; [done|]. intros (Hi & Hfree & _). destruct Hfree. by apply H.
  - done.
Qed.

(** ** Well-formed ledgers *)

Section WellFormed.

Lemma NoDup_fmap_inj_on {A B} (f : A → B) (l : list A) :
  NoDup (f <$> l) → ∀ x y, x ∈ l → y ∈ l → f x = f y → x = y.
Proof.
  induction l as [|a l IH]; intros Hnd x y Hx Hy Hxy.
  - by apply elem_of_nil in Hx.
  - rewrite fmap_cons in Hnd. apply NoDup_cons in Hnd as [Ha Hnd].
    apply elem_of_cons in Hx as [->|Hx]; apply elem_of_cons in Hy as [->|Hy].
    + done.
    + destruct Ha. rewrite Hxy. by apply list_elem_of_fmap_2.
    + destruct Ha. rewrite <- Hxy. by apply list_elem_of_fmap_2.
    + by apply IH.
Qed.

Lemma slot_list_eq (st : State) :
  slot_list st = (λ kt, slot_number (snd kt)) <$> map_to_list (active_tickets st).
Proof. unfold slot_list, values. by rewrite <- list_fmap_compose. Qed.

(** Distinctness of the held slots is a property of the list of slots. *)
Lemma slots_distinct_NoDup (st : State) :
  slots_distinct st ↔ NoDup (slot_list st).
Proof.
  rewrite slot_list_eq. split.
  - intros Hd. apply NoDup_fmap_2_strong; [|apply NoDup_map_to_list].
    intros [k1 t1] [k2 t2] H1%elem_of_map_to_list H2%elem_of_map_to_list Heq.
    simpl in Heq. assert (k1 = k2) as -> by eauto. congruence.
  - intros Hnd k1 k2 t1 t2 H1 H2 Heq.
    apply elem_of_map_to_list in H1, H2.
    by pose proof (NoDup_fmap_inj_on _ _ Hnd (k1, t1) (k2, t2) H1 H2 Heq) as [= -> _].
Qed.

Lemma slots_in_range_Forall (st : State) :
  slots_in_range st ↔ Forall (λ i, 1 ≤ i ≤ TOTAL_SLOTS) (slot_list st).
Proof.
  rewrite slot_list_eq, Forall_fmap, Forall_forall. split.
  - intros Hr [k t] Hkt%elem_of_map_to_list. simpl. eauto.
  - intros Hall k t Hkt%elem_of_map_to_list. apply (Hall _ Hkt).
Qed.

(** At most [TOTAL_SLOTS] tickets fit in distinct slots of the range. *)
Lemma size_le_TOTAL_SLOTS (st : State) :
  slots_distinct st → slots_in_range st →
  Z.of_nat (size (active_tickets st)) ≤ TOTAL_SLOTS.
Proof.
  intros Hd%slots_distinct_NoDup Hr%slots_in_range_Forall.
  assert (slot_list st ⊆+ seqZ 1 TOTAL_SLOTS) as Hsub.
  { apply NoDup_submseteq; [done|]. intros i Hi. apply elem_of_seqZ.
    rewrite Forall_forall in Hr. specialize (Hr i Hi). lia. }
  apply submseteq_length in Hsub.
  rewrite length_seqZ in Hsub. unfold slot_list, values in Hsub.
  rewrite !length_fmap, length_map_to_list in Hsub. unfold TOTAL_SLOTS in *. lia.
Qed.

(** Storing a ticket in a slot that nobody holds. *)
Lemma slots_distinct_insert (st st' : State) (id : str) (t : Ticket) :
  active_tickets st' = <[id := t]> (active_tickets st) →
  ¬ held st (slot_number t) →
  slots_distinct st → slots_distinct st'.
Proof.
  intros Heq Hfree Hd k1 k2 t1 t2. rewrite Heq.
  intros [[<- <-]|[Hk1 H1]]%lookup_insert_Some [[<- <-]|[Hk2 H2]]%lookup_insert_Some Hs;
    [done| | |by eapply Hd].
  - destruct Hfree. exists k2, t2. eauto.
  - destruct Hfree. exists k1, t1. eauto.
Qed.

Lemma slots_in_range_insert (st st' : State) (id : str) (t : Ticket) :
  active_tickets st' = <[id := t]> (active_tickets st) →
  1 ≤ slot_number t ≤ TOTAL_SLOTS →
  slots_in_range st → slots_in_range st'.
Proof.
  intros Heq Ht Hr k t'. rewrite Heq.
  intros [[<- <-]|[Hk H1]]%lookup_insert_Some; [done|by eapply Hr].
Qed.

Lemma slots_distinct_delete (st st' : State) (id : str) :
  active_tickets st' = delete id (active_tickets st) →
  slots_distinct st → slots_distinct st'.
Proof.
  intros Heq Hd k1 k2 t1 t2. rewrite Heq.
  intros [_ H1]%lookup_delete_Some [_ H2]%lookup_delete_Some. by eapply Hd.
Qed.

Lemma slots_in_range_delete (st st' : State) (id : str) :
  active_tickets st' = delete id (active_tickets st) →
  slots_in_range st → slots_in_range st'.
Proof.
  intros Heq Hr k t. rewrite Heq. intros [_ H1]%lookup_delete_Some. by eapply Hr.
Qed.

Lemma slots_distinct_same (st st' : State) :
  active_tickets st' = active_tickets st → slots_distinct st → slots_distinct st'.
Proof. intros Heq Hd k1 k2 t1 t2. rewrite Heq. apply Hd. Qed.

Lemma slots_in_range_same (st st' : State) :
  active_tickets st' = active_tickets st → slots_in_range st → slots_in_range st'.
Proof. intros Heq Hr k t. rewrite Heq. apply Hr. Qed.

Lemma held_same (st st' : State) (i : Z) :
  active_tickets st' = active_tickets st → held st' i ↔ held st i.
Proof. intros Heq. unfold held. by rewrite Heq. Qed.

Lemma find_next_available_slot_same (st st' : State) :
  active_tickets st' = active_tickets st →
  find_next_available_slot st' = find_next_available_slot st.
Proof.
  intros Heq. unfold find_next_available_slot, used_slots. by rewrite Heq.
Qed.

Lemma well_formed_same (st st' : State) :
  active_tickets st' = active_tickets st → well_formed st → well_formed st'.
Proof.
  intros Heq [Hd Hr]. split; eauto using slots_distinct_same, slots_in_range_same.
Qed.

Lemma well_formed_create_entry (data : option str) (now : Z) (st : State) :
  well_formed st → well_formed (snd (create_entry data now st)).
Proof.
  intros Hwf. destruct (create_entry_cases data now st);
    [done | done | by eapply well_formed_same | ].
  pose proof (find_next_available_slot_spec st) as Hspec.
  match goal with H : find_next_available_slot st = Some _ |- _ => rewrite H in Hspec end.
  destruct Hspec as (Hi & Hfree & _), Hwf as [Hd Hr]. split.
  - eapply slots_distinct_insert; [reflexivity|done..].
  - eapply slots_in_range_insert; [reflexivity|done..].
Qed.

Lemma create_exit_tickets (data : option str) (now : Z) (st : State) :
  active_tickets (snd (create_exit data now st)) = active_tickets st
  ∨ ∃ id, active_tickets (snd (create_exit data now st))
          = delete id (active_tickets st).
Proof.
  destruct data as [raw|]; [|by left].
  destruct (active_tickets st !! upper (strip raw)) as [t|] eqn:Ht.
  - right. eexists. by rewrite (create_exit_found _ _ _ t).
  - left. by rewrite create_exit_not_found.
Qed.

Lemma well_formed_create_exit (data : option str) (now : Z) (st : State) :
  well_formed st → well_formed (snd (create_exit data now st)).
Proof.
  intros [Hd Hr].
  destruct (create_exit_tickets data now st) as [Heq|[id Heq]].
  - by eapply well_formed_same.
  - split; eauto using slots_distinct_delete, slots_in_range_delete.
Qed.

Lemma well_formed_populate_one (entry : str * Z) (st : State) :
  well_formed st → well_formed (snd (populate_one entry st)).
Proof.
  intros Hwf. destruct entry as [plate time].
  unfold populate_one, mbind, M_bind, bind, get. rewrite generate_ticket_id_eq.
  set (st1 := {| active_tickets := active_tickets st;
                 occupied_slots_count := occupied_slots_count st;
                 next_ticket_number := next_ticket_number st + 1 |}).
  assert (well_formed st1) as [Hd Hr] by (by eapply well_formed_same).
  pose proof (find_next_available_slot_spec st1) as Hspec.
  destruct (find_next_available_slot st1) as [slot|]; [|done].
  destruct Hspec as (Hi & Hfree & _). split.
  - eapply slots_distinct_insert; [reflexivity|done..].
  - eapply slots_in_range_insert; [reflexivity|done..].
Qed.

Lemma well_formed_for_each (l : list (str * Z)) (st : State) :
  well_formed st → well_formed (snd (for_each populate_one l st)).
Proof.
  revert st. induction l as [|e l IH]; intros st Hwf; [done|].
  simpl. unfold mbind, M_bind, bind.
  pose proof (well_formed_populate_one e st Hwf) as H1.
  destruct (populate_one e st) as [[] st1]. by apply IH.
Qed.

Lemma populate_initial_data_eq (st : State) :
  snd (populate_initial_data st)
  = if decide (active_tickets st = ∅)
    then let st' := snd (for_each populate_one initial_entries st) in
         set_occupied_slots_count (Z.of_nat (size (active_tickets st'))) st'
    else st.
Proof.
  unfold populate_initial_data, mbind, M_bind, bind, get.
  destruct (decide (active_tickets st = ∅)); [|done].
  by destruct (for_each populate_one initial_entries st) as [[] st'].
Qed.

Lemma well_formed_step (op : Operation) (st : State) :
  well_formed st → well_formed (step op st).
Proof.
  intros Hwf. destruct op; simpl.
  - rewrite populate_initial_data_eq. case_decide; [|done].
    eapply well_formed_same; [|by apply well_formed_for_each]. done.
  - done.
  - by apply well_formed_create_entry.
  - by apply well_formed_create_exit.
  - done.
  - rewrite webhook_slot_minus_eq. by eapply well_formed_same.
  - rewrite webhook_slot_plus_eq. by eapply well_formed_same.
Qed.

Lemma well_formed_initial : well_formed initial_state.
Proof. split; intros k; intros; simplify_map_eq. Qed.

Lemma well_formed_reachable (st : State) : reachable st → well_formed st.
Proof.
  induction 1; [apply well_formed_initial | by apply well_formed_step].
Qed.

End WellFormed.

(** ** The occupancy counter *)

Section Counter.

Lemma reachable_run (ops : list Operation) (st : State) :
  reachable st → reachable (run ops st).
Proof.
  revert st. induction ops as [|op ops IH]; intros st Hst; [done|].
  simpl. apply IH. by constructor.
Qed.

Lemma counter_create_entry (data : option str) (now : Z) (st : State) :
  well_formed st → counter_in_range st →
  counter_in_range (snd (create_entry data now st)).
Proof.
  intros [Hd Hr] Hc. unfold counter_in_range in *.
  destruct (create_entry_cases data now st); simpl; [done|done| |lia].
  pose proof (size_le_TOTAL_SLOTS st Hd Hr). lia.
Qed.

Lemma counter_create_exit (data : option str) (now : Z) (st : State) :
  counter_in_range st → counter_in_range (snd (create_exit data now st)).
Proof.
  intros Hc. unfold counter_in_range in *.
  destruct data as [raw|]; [|done].
  destruct (active_tickets st !! upper (strip raw)) as [t|] eqn:Ht.
  - rewrite (create_exit_found _ _ _ t) by done. simpl.
    destruct (Z.ltb_spec 0 (occupied_slots_count st)); lia.
  - by rewrite create_exit_not_found.
Qed.

Lemma counter_webhook_slot_minus (st : State) :
  counter_in_range st → counter_in_range (snd (webhook_slot_minus st)).
Proof.
  intros Hc. unfold counter_in_range in *. rewrite webhook_slot_minus_eq. simpl.
  destruct (Z.ltb_spec 0 (occupied_slots_count st)); lia.
Qed.

Lemma counter_webhook_slot_plus (st : State) :
  counter_in_range st → counter_in_range (snd (webhook_slot_plus st)).
Proof.
  intros Hc. unfold counter_in_range in *. rewrite webhook_slot_plus_eq. simpl.
  destruct (Z.ltb_spec (occupied_slots_count st) TOTAL_SLOTS); lia.
Qed.

Lemma counter_populate_initial_data (st : State) :
  well_formed st → counter_in_range st →
  counter_in_range (snd (populate_initial_data st)).
Proof.
  intros Hwf Hc. rewrite populate_initial_data_eq. case_decide; [|done].
  destruct (well_formed_for_each initial_entries st Hwf) as [Hd Hr].
  pose proof (size_le_TOTAL_SLOTS _ Hd Hr).
  unfold counter_in_range. cbv zeta. unfold set_occupied_slots_count.
  cbn [occupied_slots_count]. lia.
Qed.

Lemma counter_step (op : Operation) (st : State) :
  well_formed st → counter_in_range st → counter_in_range (step op st).
Proof.
  intros Hwf Hc. destruct op; simpl.
  - by apply counter_populate_initial_data.
  - done.
  - by apply counter_create_entry.
  - by apply counter_create_exit.
  - done.
  - by apply counter_webhook_slot_minus.
  - by apply counter_webhook_slot_plus.
Qed.

Lemma counter_reachable (st : State) : reachable st → counter_in_range st.
Proof.
  induction 1 as [|op st Hst IH].
  - unfold counter_in_range, TOTAL_SLOTS. simpl. lia.
  - apply counter_step; [by apply well_formed_reachable | done].
Qed.

End Counter.

(** ** Check-in and check-out *)

(** C3. With [occupied_count >= TOTAL_SLOTS], a check-in with any plate
    (non-empty after trimming, which is the precondition of a check-in)
    fails with the lot-full error, whatever the active tickets are: the
    counter is looked at before any slot is searched. No ticket is
    created: the whole state (tickets, counter, sequence) is as it was. *)
Theorem create_entry_counter_full (st : State) (raw : str) (now : Z) :
  strip raw ≠ [] →
  TOTAL_SLOTS ≤ occupied_slots_count st →
  fst (create_entry (Some raw) now st) = LotFullError
  ∧ snd (create_entry (Some raw) now st) = st.
Proof.
  intros Hplate Hfull.
  destruct (create_entry_cases (Some raw) now st) as [Hblank| | |].
  - destruct Hplate. by apply Hblank.
  - done.
  - lia.
  - lia.
Qed.

(** C4. When the counter leaves room ([occupied_count < TOTAL_SLOTS]) but
    every slot is held, a check-in (with a plate that is not blank after
    trimming) fails with the state-desync variant of the lot-full error,
    sets the counter to the number of active tickets, and creates no
    ticket: tickets and sequence number are as before. *)
Theorem create_entry_desync_resyncs (st : State) (raw : str) (now : Z) :
  strip raw ≠ [] →
  occupied_slots_count st < TOTAL_SLOTS →
  find_next_available_slot st = None →
  let st' := snd (create_entry (Some raw) now st) in
  fst (create_entry (Some raw) now st) = LotFullError_desync
  ∧ occupied_slots_count st' = Z.of_nat (size (active_tickets st))
  ∧ active_tickets st' = active_tickets st
  ∧ next_ticket_number st' = next_ticket_number st.
Proof.
  intros Hplate Hroom Hnone st'. subst st'.
  destruct (create_entry_cases (Some raw) now st) as [Hblank| | |].
  - destruct Hplate. by apply Hblank.
  - lia.
  - done.
  - congruence.
Qed.

(** C5. A check-out whose ticket id, trimmed and uppercased, is not a key
    of the active tickets fails with the ticket-not-found error and leaves
    the whole state unchanged, the occupancy counter included. *)
Theorem create_exit_unknown_ticket (st : State) (raw : str) (now : Z) :
  active_tickets st !! upper (strip raw) = None →
  fst (create_exit (Some raw) now st) = TicketNotFoundError
  ∧ snd (create_exit (Some raw) now st) = st
  ∧ occupied_slots_count (snd (create_exit (Some raw) now st))
    = occupied_slots_count st.
Proof.
  intros Hnone.
  assert (create_exit (Some raw) now st = (TicketNotFoundError, st)) as ->.
  { unfold create_exit, mbind, M_bind, bind, get. by rewrite Hnone. }
  done.
Qed.

(** C6. The counter stays within [[0, TOTAL_SLOTS]]: in every state of
    every run; across each operation on a ledger whose tickets hold
    distinct slots of the range; across any sequence of webhook signals;
    across a check-out, which takes one off the counter but never below
    zero; and a check-in that succeeds found the counter below
    [TOTAL_SLOTS] and adds exactly one. *)
Theorem occupied_count_stays_in_range :
  (∀ st, reachable st → counter_in_range st)
  ∧ (∀ op st, well_formed st → counter_in_range st →
              counter_in_range (step op st))
  ∧ (∀ signals st, counter_in_range st →
                   counter_in_range (run (adjust_occupancy <$> signals) st))
  ∧ (∀ data now st, counter_in_range st →
                    counter_in_range (step (OpExit data now) st))
  ∧ (∀ raw now st t, active_tickets st !! upper (strip raw) = Some t →
       0 ≤ occupied_slots_count st →
       occupied_slots_count (step (OpExit (Some raw) now) st)
       = Z.max 0 (occupied_slots_count st - 1))
  ∧ (∀ data now st body status,
       fst (create_entry data now st) = Success body status →
       occupied_slots_count st < TOTAL_SLOTS
       ∧ occupied_slots_count (step (OpEntry data now) st)
         = occupied_slots_count st + 1).
Proof.
  split; [exact counter_reachable|].
  split; [exact counter_step|].
  split.
  { intros signals. induction signals as [|b signals IH]; intros st Hc; [done|].
    simpl. apply IH. destruct b; simpl.
    - by apply counter_webhook_slot_plus.
    - by apply counter_webhook_slot_minus. }
  split; [intros; by apply counter_create_exit|].
  split.
  { intros raw now st t Ht Hpos. cbn [step].
    rewrite (create_exit_found _ _ _ t) by done. cbn [occupied_slots_count].
    destruct (Z.ltb_spec 0 (occupied_slots_count st)); lia. }
  intros data now st body status Hok. cbn [step].
  destruct (create_entry_cases data now st); try discriminate Hok.
  split; [done|reflexivity].
Qed.

(** ** Sequences of check-ins *)

Section CheckIns.

(** What a successful check-in does to the slots. *)
Lemma create_entry_success_slot
    (data : option str) (now : Z) (st : State) (body : EntryBody) (status : Z) :
  fst (create_entry data now st) = Success body status →
  1 ≤ entry_slot_number body ≤ TOTAL_SLOTS
  ∧ ¬ held st (entry_slot_number body)
  ∧ ∃ t, slot_number t = entry_slot_number body
         ∧ active_tickets (snd (create_entry data now st))
           = <[entry_ticket_id body := t]> (active_tickets st).
Proof.
  intros Hok.
  destruct (create_entry_cases data now st) as [| | |raw slot _ _ _ Hslot];
    try discriminate Hok.
  injection Hok as <- _.
  cbn [entry_slot_number entry_ticket_id snd active_tickets].
  pose proof (find_next_available_slot_spec st) as Hspec. rewrite Hslot in Hspec.
  destruct Hspec as (Hi & Hfree & _).
  split; [done|]. split; [done|].
  by exists (ticket_of_entry raw now st slot).
Qed.

Lemma slots_distinct_create_entry (data : option str) (now : Z) (st : State) :
  slots_distinct st → slots_distinct (snd (create_entry data now st)).
Proof.
  intros Hd. destruct (fst (create_entry data now st)) as [msg code|body status] eqn:Hr.
  - destruct (create_entry_cases data now st); try discriminate Hr; try done;
      by eapply slots_distinct_same.
  - apply create_entry_success_slot in Hr as (_ & Hfree & t & Ht & Heq).
    eapply slots_distinct_insert; [exact Heq| by rewrite Ht |done].
Qed.

(** What a successful check-in stores. *)
Lemma create_entry_success_ticket
    (data : option str) (now : Z) (st : State) (body : EntryBody) (status : Z) :
  fst (create_entry data now st) = Success body status →
  ∃ t, ticket_id t = entry_ticket_id body
       ∧ slot_number t = entry_slot_number body
       ∧ plate_number t = entry_plate_number body
       ∧ entry_time t = entry_entry_time body
       ∧ active_tickets (snd (create_entry data now st))
         = <[entry_ticket_id body := t]> (active_tickets st).
Proof.
  intros Hok.
  destruct (create_entry_cases data now st) as [| | |raw slot _ _ _ Hslot];
    try discriminate Hok.
  injection Hok as <- _. by exists (ticket_of_entry raw now st slot).
Qed.

(** The slots handed out so far belong to tickets the sequence has
    numbered; a later check-in hands out none of them again. *)
Lemma assigned_slots_fresh
    (reqs : list (option str * Z)) (st : State) (seen : list Z) :
  (∀ s, s ∈ seen →
        ∃ m t, m < next_ticket_number st
               ∧ active_tickets st !! ticket_id_of m = Some t
               ∧ slot_number t = s) →
  NoDup (assigned_slots (check_ins reqs st))
  ∧ ∀ s, s ∈ assigned_slots (check_ins reqs st) → s ∉ seen.
Proof.
  revert st seen. induction reqs as [|[data now] reqs IH]; intros st seen Hseen.
  { split; [constructor|]. by intros s Hs%elem_of_nil. }
  cbn [check_ins]. unfold assigned_slots. cbn [omap list_omap fst].
  fold (assigned_slots (check_ins reqs (snd (create_entry data now st)))).
  pose proof (find_next_available_slot_spec st) as Hspec.
  destruct (create_entry_cases data now st) as [| | |raw slot _ _ _ Hslot];
    cbn [fst snd]; try (apply IH; exact Hseen).
  rewrite Hslot in Hspec. destruct Hspec as (_ & Hfree & _).
  cbn [entry_slot_number].
  match goal with
  | |- context [check_ins reqs ?st1] =>
      destruct (IH st1 (slot :: seen)) as [Hnd Hnew]
  end.
  { intros s [->|Hs]%elem_of_cons.
    - exists (next_ticket_number st), (ticket_of_entry raw now st slot).
      cbn [next_ticket_number active_tickets].
      split; [lia|]. split; [apply lookup_insert_eq|done].
    - destruct (Hseen s Hs) as (m & t & Hm & Ht & Hst).
      exists m, t. cbn [next_ticket_number active_tickets].
      split; [lia|]. split; [|done].
      rewrite lookup_insert_ne; [done|].
      intros Heq%ticket_id_of_inj. lia. }
  split.
  - apply NoDup_cons. split; [|done].
    intros Hin%Hnew. apply Hin, elem_of_cons. by left.
  - intros s [->|Hs]%elem_of_cons.
    + intros (m & t & _ & Ht & Hst)%Hseen. apply Hfree. by exists (ticket_id_of m), t.
    + intros Hin. apply (Hnew s Hs), elem_of_cons. by right.
Qed.

End CheckIns.

(** C7. Starting from a ledger whose active tickets hold distinct slots,
    along a sequence of at most [TOTAL_SLOTS] check-ins that all succeed:
    every check-in is answered with a slot of [[1, TOTAL_SLOTS]] that no
    ticket held before it, and stores under the ticket id it returns a
    ticket that holds that slot, changing no other entry of the ledger;
    after each check-in the slots held by the active tickets are
    pairwise distinct; and no two check-ins of the sequence are given
    the same slot. *)
Theorem check_ins_assign_distinct_slots
    (reqs : list (option str * Z)) (st : State) :
  slots_distinct st →
  Z.of_nat (length reqs) ≤ TOTAL_SLOTS →
  Forall (λ r, is_success (fst r) = true) (check_ins reqs st) →
  each_check_in
    (λ before response after,
       ∃ body status t,
         response = Success body status
         ∧ 1 ≤ entry_slot_number body ≤ TOTAL_SLOTS
         ∧ ¬ held before (entry_slot_number body)
         ∧ active_tickets after
           = <[entry_ticket_id body := t]> (active_tickets before)
         ∧ ticket_id t = entry_ticket_id body
         ∧ slot_number t = entry_slot_number body
         ∧ held after (entry_slot_number body)
         ∧ slots_distinct after)
    reqs st
  ∧ NoDup (assigned_slots (check_ins reqs st))
  ∧ length (assigned_slots (check_ins reqs st)) = length reqs.
Proof.
  intros Hd Hlen Hok. split; [|split].
  - clear Hlen. revert st Hd Hok.
    induction reqs as [|[data now] reqs IH]; intros st Hd Hok; [done|].
    cbn [check_ins each_check_in] in *. apply Forall_cons in Hok as [Hok1 Hok].
    split; [|apply IH; [by apply slots_distinct_create_entry|done]].
    destruct (fst (create_entry data now st)) as [|body status] eqn:Hr;
      [discriminate Hok1|].
    destruct (create_entry_success_slot _ _ _ _ _ Hr) as (Hrange & Hfree & _).
    destruct (create_entry_success_ticket _ _ _ _ _ Hr)
      as (t & Hid & Hslot & _ & _ & Heq).
    exists body, status, t. repeat (split; [done|]). split.
    + exists (entry_ticket_id body), t. split; [|done].
      rewrite Heq. apply lookup_insert_eq.
    + by apply slots_distinct_create_entry.
  - apply (assigned_slots_fresh reqs st []). by intros s Hs%elem_of_nil.
  - clear Hd Hlen. revert st Hok.
    induction reqs as [|[data now] reqs IH]; intros st Hok; [done|].
    cbn [check_ins] in *. apply Forall_cons in Hok as [Hok1 Hok].
    unfold assigned_slots. cbn [omap list_omap].
    destruct (fst (create_entry data now st)); [discriminate Hok1|].
    cbn [length]. f_equal. by apply IH.
Qed.

(** ** Listing the active tickets *)

Section Listing.

Lemma insert_by_slot_Permutation (x : TicketData) (l : list TicketData) :
  insert_by_slot x l ≡ₚ x :: l.
Proof.
  induction l as [|y l IH]; [done|]. simpl.
  destruct (data_slot_number x <=? data_slot_number y); [done|].
  rewrite IH. apply Permutation_swap.
Qed.

Lemma sort_by_slot_Permutation (l : list TicketData) : sort_by_slot l ≡ₚ l.
Proof.
  induction l as [|x l IH]; [done|].
  unfold sort_by_slot in *. simpl. rewrite insert_by_slot_Permutation.
  by constructor.
Qed.

Lemma insert_by_slot_sorted (x : TicketData) (l : list TicketData) :
  StronglySorted slot_le l → StronglySorted slot_le (insert_by_slot x l).
Proof.
  induction 1 as [|y l Hsorted IH Hall]; simpl.
  - repeat constructor.
  - destruct (Z.leb_spec (data_slot_number x) (data_slot_number y)) as [Hle|Hgt].
    + constructor; [by constructor|]. constructor; [done|].
      eapply Forall_impl; [exact Hall|]. unfold slot_le. intros z Hz. lia.
    + constructor; [done|]. rewrite insert_by_slot_Permutation.
      constructor; [|done]. unfold slot_le. lia.
Qed.

Lemma sort_by_slot_sorted (l : list TicketData) :
  StronglySorted slot_le (sort_by_slot l).
Proof.
  induction l as [|x l IH]; [constructor|].
  by apply insert_by_slot_sorted.
Qed.

Lemma ticket_data_cost (now : Z) (t : Ticket) :
  (current_duration_hours (ticket_data now t), current_cost (ticket_data now t))
  = calculate_cost (entry_time t) now
  ∧ data_entry_time (ticket_data now t) = entry_time t
  ∧ data_slot_number (ticket_data now t) = slot_number t
  ∧ data_ticket_id (ticket_data now t) = ticket_id t
  ∧ data_plate_number (ticket_data now t) = plate_number t.
Proof. unfold ticket_data. by destruct (calculate_cost (entry_time t) now). Qed.

(** The snapshot of a ticket, field by field. *)
Lemma ticket_data_eq (now : Z) (t : Ticket) :
  ticket_data now t
  = {| data_ticket_id := ticket_id t;
       data_plate_number := plate_number t;
       data_slot_number := slot_number t;
       data_entry_time := entry_time t;
       current_duration_hours := fst (calculate_cost (entry_time t) now);
       current_cost := snd (calculate_cost (entry_time t) now) |}.
Proof. unfold ticket_data. by destruct (calculate_cost (entry_time t) now). Qed.

End Listing.

(** C8. [get_all_tickets] returns one snapshot per active ticket: the
    listing is, up to its order, the list of the snapshots of the
    entries of the ticket map, one per key. The snapshot of a ticket
    carries its id, plate, slot and entry time, with the duration and
    the cost that [calculate_cost] gives between its entry time and
    [now]. The listing is in ascending order of slot number, and the
    state (tickets, counter, sequence) is left as it was. *)
Theorem get_all_tickets_snapshot (now : Z) (st : State) :
  let listing := fst (get_all_tickets now st) in
  let snapshot (t : Ticket) :=
    {| data_ticket_id := ticket_id t;
       data_plate_number := plate_number t;
       data_slot_number := slot_number t;
       data_entry_time := entry_time t;
       current_duration_hours := fst (calculate_cost (entry_time t) now);
       current_cost := snd (calculate_cost (entry_time t) now) |} in
  snd (get_all_tickets now st) = st
  ∧ listing ≡ₚ (λ kt, snapshot (snd kt)) <$> map_to_list (active_tickets st)
  ∧ NoDup (fst <$> map_to_list (active_tickets st))
  ∧ length listing = size (active_tickets st)
  ∧ (∀ d, d ∈ listing ↔
          ∃ k t, active_tickets st !! k = Some t ∧ d = snapshot t)
  ∧ Forall (λ d, (current_duration_hours d, current_cost d)
                 = calculate_cost (data_entry_time d) now) listing
  ∧ StronglySorted slot_le listing.
Proof.
  intros listing snapshot.
  assert (Hsnap : ∀ t, ticket_data now t = snapshot t)
    by (intros t; apply ticket_data_eq).
  assert (Hperm : listing ≡ₚ
            (λ kt, snapshot (snd kt)) <$> map_to_list (active_tickets st)).
  { subst listing. unfold get_all_tickets, mbind, M_bind, bind, get, mret, M_ret, ret.
    cbn [fst]. rewrite sort_by_slot_Permutation. unfold values.
    rewrite <- list_fmap_compose.
    by rewrite (list_fmap_ext (ticket_data now ∘ snd) (λ kt, snapshot (snd kt)))
      by (intros i [k t] _; apply Hsnap). }
  split; [reflexivity|]. split; [exact Hperm|].
  split; [apply NoDup_fst_map_to_list|].
  split; [by rewrite Hperm, length_fmap, length_map_to_list|].
  split; [|split].
  - intros d. rewrite Hperm, list_elem_of_fmap. split.
    + intros ([k t] & -> & Hkt%elem_of_map_to_list). by exists k, t.
    + intros (k & t & Hkt & ->). exists (k, t).
      split; [done|by apply elem_of_map_to_list].
  - rewrite Hperm, Forall_fmap. apply Forall_forall. intros [k t] _.
    unfold compose, snapshot. cbn [snd current_duration_hours current_cost data_entry_time].
    by destruct (calculate_cost (entry_time t) now).
  - subst listing. apply sort_by_slot_sorted.
Qed.

(** ** Ticket ids *)

Section TicketIds.

Lemma next_populate_one (entry : str * Z) (st : State) :
  next_ticket_number (snd (populate_one entry st)) = next_ticket_number st + 1.
Proof.
  destruct entry as [plate time].
  unfold populate_one, mbind, M_bind, bind, get. rewrite generate_ticket_id_eq.
  by destruct (find_next_available_slot _).
Qed.

Lemma next_for_each (l : list (str * Z)) (st : State) :
  next_ticket_number (snd (for_each populate_one l st))
  = next_ticket_number st + Z.of_nat (length l).
Proof.
  revert st. induction l as [|e l IH]; intros st.
  - simpl. lia.
  - cbn [for_each]. unfold mbind, M_bind, bind.
    pose proof (next_populate_one e st) as H1.
    destruct (populate_one e st) as [[] st1]. rewrite IH. simpl in *. lia.
Qed.

(** The sequence number never goes back. *)
Lemma next_step_mono (op : Operation) (st : State) :
  next_ticket_number st ≤ next_ticket_number (step op st).
Proof.
  destruct op; cbn [step].
  - rewrite populate_initial_data_eq. case_decide; [|done].
    cbv zeta. unfold set_occupied_slots_count. cbn [next_ticket_number].
    rewrite next_for_each. lia.
  - done.
  - destruct (create_entry_cases data now st); simpl; lia.
  - destruct data as [raw|]; [|done].
    destruct (active_tickets st !! upper (strip raw)) as [t|] eqn:Ht.
    + by rewrite (create_exit_found _ _ _ t).
    + by rewrite create_exit_not_found.
  - done.
  - by rewrite webhook_slot_minus_eq.
  - by rewrite webhook_slot_plus_eq.
Qed.

Lemma issued_by_spec (op : Operation) (st : State) :
  issued_by op st = []
  ∨ issued_by op st = [ticket_id_of (next_ticket_number st)]
    ∧ next_ticket_number (step op st) = next_ticket_number st + 1.
Proof.
  destruct op; try by left. cbn [issued_by step].
  destruct (create_entry_cases data now st); try by left.
  by right.
Qed.

(** Along a run, the issued ids carry increasing sequence numbers. *)
Lemma issued_numbers (ops : list Operation) (st : State) :
  0 ≤ next_ticket_number st →
  NoDup (issued ops st)
  ∧ ∀ id, id ∈ issued ops st →
          ∃ n, next_ticket_number st ≤ n ∧ id = ticket_id_of n.
Proof.
  revert st. induction ops as [|op ops IH]; intros st Hst.
  - split; [constructor|]. by intros id Hid%elem_of_nil.
  - cbn [issued]. pose proof (next_step_mono op st) as Hmono.
    destruct (IH (step op st) ltac:(lia)) as [Hnd Hids].
    destruct (issued_by_spec op st) as [->|[-> Hnext]].
    + split; [done|]. intros id Hid. destruct (Hids id Hid) as (n & Hn & ->).
      exists n. split; [lia|done].
    + split.
      * simpl. apply NoDup_cons. split; [|done].
        intros (n & Hn & Heq)%Hids. apply ticket_id_of_inj in Heq; lia.
      * intros id [->|Hid]%elem_of_cons.
        -- exists (next_ticket_number st). split; [lia|done].
        -- destruct (Hids id Hid) as (n & Hn & ->). exists n. split; [lia|done].
Qed.

(** The ids of a run of check-in requests are numbered consecutively. *)
Lemma issued_ids_consecutive (reqs : list (option str * Z)) (st : State) :
  issued_ids (check_ins reqs st)
  = ticket_id_of <$> seqZ (next_ticket_number st)
                          (Z.of_nat (length (issued_ids (check_ins reqs st)))).
Proof.
  revert st. induction reqs as [|[data now] reqs IH]; intros st; [done|].
  cbn [check_ins]. unfold issued_ids in *. cbn [omap list_omap fst].
  specialize (IH (snd (create_entry data now st))). revert IH.
  destruct (create_entry_cases data now st); cbn [fst snd]; intros IH;
    try exact IH.
  cbn [length entry_ticket_id]. rewrite seqZ_cons by lia.
  rewrite Nat2Z.inj_succ, Z.pred_succ, fmap_cons. f_equal. exact IH.
Qed.

(** The ids in the ledger stay behind the sequence number. *)
Lemma ids_used_weaken (st st' : State) :
  (∀ k t, active_tickets st' !! k = Some t → active_tickets st !! k = Some t) →
  next_ticket_number st ≤ next_ticket_number st' →
  ids_used st → ids_used st'.
Proof.
  intros Hsub Hnext [H1 Hids]. split; [lia|].
  intros k t Hkt. destruct (Hids k t (Hsub k t Hkt)) as (Hid & n & Hn & ->).
  split; [done|]. exists n. split; [lia|done].
Qed.

Lemma ids_used_insert (st st' : State) (t : Ticket) :
  active_tickets st'
  = <[ticket_id_of (next_ticket_number st) := t]> (active_tickets st) →
  ticket_id t = ticket_id_of (next_ticket_number st) →
  next_ticket_number st' = next_ticket_number st + 1 →
  ids_used st → ids_used st'.
Proof.
  intros Heq Hid Hnext [H1 Hids]. split; [lia|].
  intros k t'. rewrite Heq.
  intros [[<- <-]|[Hk Hkt]]%lookup_insert_Some.
  - split; [done|]. exists (next_ticket_number st). split; [lia|done].
  - destruct (Hids k t' Hkt) as (Hid' & n & Hn & ->).
    split; [done|]. exists n. split; [lia|done].
Qed.

Lemma ids_used_populate_one (entry : str * Z) (st : State) :
  ids_used st → ids_used (snd (populate_one entry st)).
Proof.
  intros Hids. destruct entry as [plate time].
  unfold populate_one, mbind, M_bind, bind, get. rewrite generate_ticket_id_eq.
  destruct (find_next_available_slot _) as [slot|].
  - eapply (ids_used_insert st); [reflexivity|reflexivity|reflexivity|done].
  - eapply (ids_used_weaken st); [done|cbn; lia|done].
Qed.

Lemma ids_used_for_each (l : list (str * Z)) (st : State) :
  ids_used st → ids_used (snd (for_each populate_one l st)).
Proof.
  revert st. induction l as [|e l IH]; intros st Hids; [done|].
  cbn [for_each]. unfold mbind, M_bind, bind.
  pose proof (ids_used_populate_one e st Hids) as H1.
  destruct (populate_one e st) as [[] st1]. by apply IH.
Qed.

Lemma ids_used_step (op : Operation) (st : State) :
  ids_used st → ids_used (step op st).
Proof.
  intros Hids. destruct op; cbn [step].
  - rewrite populate_initial_data_eq. case_decide; [|done].
    eapply ids_used_weaken; [| |by apply (ids_used_for_each initial_entries)];
      done.
  - done.
  - destruct (create_entry_cases data now st); [done|done| |].
    + eapply ids_used_weaken; [| |exact Hids]; done.
    + eapply (ids_used_insert st); [reflexivity|reflexivity|reflexivity|done].
  - destruct data as [raw|]; [|done].
    destruct (active_tickets st !! upper (strip raw)) as [t|] eqn:Ht.
    + rewrite (create_exit_found _ _ _ t) by done.
      eapply ids_used_weaken; [| |exact Hids]; [|done].
      cbn [active_tickets]. by intros k t' [_ ?]%lookup_delete_Some.
    + by rewrite create_exit_not_found.
  - done.
  - rewrite webhook_slot_minus_eq. eapply ids_used_weaken; [| |exact Hids]; done.
  - rewrite webhook_slot_plus_eq. eapply ids_used_weaken; [| |exact Hids]; done.
Qed.

Lemma ids_used_reachable (st : State) : reachable st → ids_used st.
Proof.
  induction 1 as [|op st _ IH]; [|by apply ids_used_step].
  split; [done|]. intros k t Hkt. simplify_map_eq.
Qed.

(** The id of the next ticket is not in the ledger yet. *)
Lemma next_id_fresh (st : State) :
  ids_used st →
  active_tickets st !! ticket_id_of (next_ticket_number st) = None.
Proof.
  intros [H1 Hids].
  destruct (active_tickets st !! _) as [t|] eqn:Ht; [|done].
  destruct (Hids _ t Ht) as (_ & n & Hn & Heq).
  apply ticket_id_of_inj in Heq; lia.
Qed.

End TicketIds.

(** C9. A successful check-in hands out the id ["T"] followed by the
    current sequence number in decimal, zero-padded to four digits, stores
    the ticket under it and moves the sequence on by one. The sequence
    starts at 1 (the first ids are T0001, T0002), no operation ever lowers
    it and a check-out leaves it as it is, so the ids handed out along any
    run are pairwise distinct, and a new id is never that of a ticket
    already in the ledger. *)
Theorem ticket_ids_sequential_and_unique :
  (∀ data now st body status,
     fst (create_entry data now st) = Success body status →
     let st' := snd (create_entry data now st) in
     entry_ticket_id body = py ("T" +:+ format_04d (next_ticket_number st))
     ∧ next_ticket_number st' = next_ticket_number st + 1
     ∧ ∃ t, active_tickets st' !! entry_ticket_id body = Some t
            ∧ ticket_id t = entry_ticket_id body)
  ∧ (∀ n, 0 ≤ n < 10000 → format_04d n = four_digits n)
  ∧ (∀ n, 0 ≤ n → ticket_number (ticket_id_of n) = Some n)
  ∧ next_ticket_number initial_state = 1
  ∧ issued [OpEntry (Some (py "B1001AA")) (seconds 1);
            OpEntry (Some (py "B1002AA")) (seconds 2)] initial_state
    = [py "T0001"; py "T0002"]
  ∧ (∀ op st, next_ticket_number st ≤ next_ticket_number (step op st))
  ∧ (∀ data now st, next_ticket_number (step (OpExit data now) st)
                    = next_ticket_number st)
  ∧ (∀ ops st, 0 ≤ next_ticket_number st → NoDup (issued ops st))
  ∧ (∀ ops, NoDup (issued ops initial_state))
  ∧ (∀ data now st body status,
       reachable st →
       fst (create_entry data now st) = Success body status →
       active_tickets st !! entry_ticket_id body = None).
Proof.
  split.
  { intros data now st body status Hok st'. subst st'.
    destruct (create_entry_cases data now st); try discriminate Hok.
    injection Hok as <- _. cbn [entry_ticket_id snd active_tickets next_ticket_number].
    split; [done|]. split; [done|].
    eexists. split; [apply lookup_insert_eq|done]. }
  split; [exact format_04d_four_digits|].
  split; [exact ticket_number_ticket_id_of|].
  split; [done|].
  split; [by vm_compute|].
  split; [exact next_step_mono|].
  split.
  { intros data now st. cbn [step]. destruct data as [raw|]; [|done].
    destruct (active_tickets st !! upper (strip raw)) as [t|] eqn:Ht.
    - by rewrite (create_exit_found _ _ _ t).
    - by rewrite create_exit_not_found. }
  split; [intros ops st Hst; by apply issued_numbers|].
  split; [intros ops; by apply issued_numbers|].
  intros data now st body status Hst%ids_used_reachable Hok.
  destruct (create_entry_cases data now st); try discriminate Hok.
  injection Hok as <- _. by apply next_id_fresh.
Qed.

(** C10. A check-in that fails does so in one of three ways (plate
    missing or blank, counter full, state desync) and in each of them
    leaves the active tickets and the sequence number as they were. Hence
    the ids handed out by any run of check-in requests, failures
    included, carry consecutive sequence numbers starting at the current
    one. *)
Theorem failed_check_in_consumes_no_id :
  (∀ data now st error status,
     fst (create_entry data now st) = Failure error status →
     let st' := snd (create_entry data now st) in
     (Failure error status = ValidationError_plate (A := EntryBody)
      ∨ Failure error status = LotFullError (A := EntryBody)
      ∨ Failure error status = LotFullError_desync (A := EntryBody))
     ∧ active_tickets st' = active_tickets st
     ∧ next_ticket_number st' = next_ticket_number st)
  ∧ (∀ now st,
       create_entry None now st = (ValidationError_plate, st)
       ∧ create_entry (Some (py "  ")) now st = (ValidationError_plate, st))
  ∧ (∀ reqs st,
       issued_ids (check_ins reqs st)
       = ticket_id_of <$> seqZ (next_ticket_number st)
           (Z.of_nat (length (issued_ids (check_ins reqs st))))).
Proof.
  split.
  { intros data now st error status Hfail st'. subst st'.
    destruct (create_entry_cases data now st); try discriminate Hfail;
      rewrite <- Hfail; cbn [snd]; auto. }
  split.
  { intros now st. split; [reflexivity|]. by apply create_entry_blank. }
  exact issued_ids_consecutive.
Qed.

(** * Further properties of the ledger *)

(** ** Billing *)

Section Billing.

Lemma ceil_div_add_divisor (a c : Z) :
  0 < c → ceil_div (a + c) c = ceil_div a c + 1.
Proof.
  intros Hc. unfold ceil_div.
  replace (a + c + c - 1) with (a + c - 1 + 1 * c) by lia.
  rewrite Z.div_add by lia. reflexivity.
Qed.

Lemma ceil_div_pos (a c : Z) : 0 < c → 0 < a → 1 ≤ ceil_div a c.
Proof.
  intros Hc Ha. pose proof (ceil_div_bounds a c Hc). nia.
Qed.

End Billing.

(** X1. The bill never goes down when the car stays longer: for a fixed
    entry time, a later exit gives at least as many hours and at least the
    same cost; the bill is a positive multiple of [HOURLY_RATE]; and it
    depends only on the elapsed time. *)
Theorem calculate_cost_monotone (entry_time exit1 exit2 shift : Z) :
  exit1 ≤ exit2 →
  fst (calculate_cost entry_time exit1) ≤ fst (calculate_cost entry_time exit2)
  ∧ snd (calculate_cost entry_time exit1) ≤ snd (calculate_cost entry_time exit2)
  ∧ HOURLY_RATE ≤ snd (calculate_cost entry_time exit1)
  ∧ calculate_cost (entry_time + shift) (exit1 + shift)
    = calculate_cost entry_time exit1.
Proof.
  intros Hle. rewrite !calculate_cost_hours.
  replace (exit1 + shift - (entry_time + shift)) with (exit1 - entry_time) by lia.
  cbn [fst snd].
  pose proof (hours_float_mono (exit1 - entry_time) (exit2 - entry_time)
                ltac:(lia)) as Hmono.
  unfold HOURLY_RATE. repeat split; lia.
Qed.

(** X2. Once the stay is positive, one more full hour of parking adds
    exactly one billed hour and [HOURLY_RATE] to the cost, as long as the
    longer stay is within [EXACT_RANGE] (2 ** 34 seconds). *)
Theorem calculate_cost_extra_hour (entry_time exit_time : Z) :
  entry_time < exit_time →
  exit_time + seconds 3600 - entry_time < EXACT_RANGE →
  calculate_cost entry_time (exit_time + seconds 3600)
  = (fst (calculate_cost entry_time exit_time) + 1,
     snd (calculate_cost entry_time exit_time) + HOURLY_RATE).
Proof.
  intros Hpos Hrange.
  rewrite !calculate_cost_eq by (done || (unfold seconds, US_PER_SECOND in *; lia)).
  replace (exit_time + seconds 3600 - entry_time)
    with (exit_time - entry_time + US_PER_HOUR)
    by (unfold seconds, US_PER_HOUR; lia).
  unfold compute_cost_spec. cbn [fst snd].
  rewrite ceil_div_add_divisor by reflexivity.
  pose proof (ceil_div_pos (exit_time - entry_time) US_PER_HOUR eq_refl ltac:(lia)).
  rewrite !Z.max_r by lia. f_equal. lia.
Qed.

(** X19. For a stay shorter than [EXACT_RANGE] (2 ** 34 seconds, a little
    over 544 years) the floats lose nothing: [calculate_cost] returns the
    ceiling of the elapsed hours, at least one, and the hours times
    [HOURLY_RATE]: the billed hours cover the stay and, unless they are
    the minimum of one, one hour less does not. A zero or negative
    elapsed time gives one hour; one second and exactly 3600 seconds give
    one hour, 3601 seconds give two. *)
Theorem calculate_cost_exact_in_range (entry_time exit_time : Z) (back : N) :
  exit_time - entry_time < EXACT_RANGE →
  let elapsed := exit_time - entry_time in
  let duration_hours := fst (calculate_cost entry_time exit_time) in
  let cost := snd (calculate_cost entry_time exit_time) in
  calculate_cost entry_time exit_time = compute_cost_spec elapsed
  ∧ 1 ≤ duration_hours
  ∧ elapsed ≤ duration_hours * US_PER_HOUR
  ∧ (duration_hours = 1 ∨ (duration_hours - 1) * US_PER_HOUR < elapsed)
  ∧ cost = duration_hours * HOURLY_RATE
  ∧ calculate_cost entry_time (entry_time - Z.of_N back) = (1, HOURLY_RATE)
  ∧ calculate_cost entry_time (entry_time + seconds 1) = (1, HOURLY_RATE)
  ∧ fst (calculate_cost entry_time (entry_time + seconds 3600)) = 1
  ∧ fst (calculate_cost entry_time (entry_time + seconds 3601)) = 2.
Proof.
  intros Hrange elapsed duration_hours cost. subst duration_hours cost.
  rewrite (calculate_cost_eq entry_time exit_time) by done. fold elapsed.
  rewrite (calculate_cost_eq entry_time (entry_time - Z.of_N back))
    by (unfold EXACT_RANGE, seconds, US_PER_SECOND; lia).
  rewrite !calculate_cost_hours.
  replace (entry_time - Z.of_N back - entry_time) with (- Z.of_N back) by lia.
  replace (entry_time + seconds 1 - entry_time) with (seconds 1) by lia.
  replace (entry_time + seconds 3600 - entry_time) with (seconds 3600) by lia.
  replace (entry_time + seconds 3601 - entry_time) with (seconds 3601) by lia.
  assert (Hh : 0 < US_PER_HOUR) by reflexivity.
  pose proof (ceil_div_bounds elapsed US_PER_HOUR Hh) as Hb.
  pose proof (ceil_div_bounds (- Z.of_N back) US_PER_HOUR Hh) as Hn.
  unfold compute_cost_spec. cbn [fst snd].
  split; [reflexivity|]. split; [lia|]. split.
  { assert (ceil_div elapsed US_PER_HOUR * US_PER_HOUR
            ≤ Z.max 1 (ceil_div elapsed US_PER_HOUR) * US_PER_HOUR)
      by (apply Z.mul_le_mono_nonneg_r; lia).
    lia. }
  split; [lia|]. split; [reflexivity|]. split.
  { replace (Z.max 1 (ceil_div (- Z.of_N back) US_PER_HOUR)) with 1; [reflexivity|].
    assert (ceil_div (- Z.of_N back) US_PER_HOUR ≤ 0); [|lia].
    assert (0 ≤ Z.of_N back) by lia. unfold US_PER_HOUR, US_PER_SECOND in *. nia. }
  split; [by vm_compute|]. split; by vm_compute.
Qed.

(** ** Slot status and webhooks *)

(** X3. The slot-status request changes nothing and reports the counter
    with [available = max(0, TOTAL_SLOTS - occupied)]; in every state the
    process can reach, occupied and available add up to the total. *)
Theorem get_available_slots_report (st : State) :
  let report := fst (get_available_slots st) in
  snd (get_available_slots st) = st
  ∧ total_slots report = TOTAL_SLOTS
  ∧ occupied_slots report = occupied_slots_count st
  ∧ available_slots report = Z.max 0 (TOTAL_SLOTS - occupied_slots_count st)
  ∧ (reachable st →
     0 ≤ available_slots report ≤ total_slots report
     ∧ occupied_slots report + available_slots report = total_slots report).
Proof.
  cbv zeta. unfold get_available_slots, mbind, M_bind, bind, get, mret, M_ret, ret.
  cbn [fst snd total_slots occupied_slots available_slots].
  split; [done|]. split; [done|]. split; [done|].
  assert ((if 0 <=? TOTAL_SLOTS - occupied_slots_count st
           then TOTAL_SLOTS - occupied_slots_count st else 0)
          = Z.max 0 (TOTAL_SLOTS - occupied_slots_count st)) as ->.
  { destruct (Z.leb_spec 0 (TOTAL_SLOTS - occupied_slots_count st)); lia. }
  split; [done|].
  intros Hc%counter_reachable. unfold counter_in_range in Hc. lia.
Qed.

(** X4. The [available_slots] in the answer to a successful check-in is
    not negative and is what the slot-status request reports right
    after it. *)
Theorem create_entry_reports_available
    (data : option str) (now : Z) (st : State) (body : EntryBody) (status : Z) :
  fst (create_entry data now st) = Success body status →
  0 ≤ entry_available_slots body
  ∧ entry_available_slots body
    = available_slots (fst (get_available_slots (snd (create_entry data now st)))).
Proof.
  intros Hok.
  destruct (create_entry_cases data now st); try discriminate Hok.
  injection Hok as <- _.
  unfold get_available_slots, mbind, M_bind, bind, get, mret, M_ret, ret.
  cbn [fst snd entry_available_slots available_slots occupied_slots_count].
  destruct (Z.leb_spec 0 (TOTAL_SLOTS - (occupied_slots_count st + 1))); lia.
Qed.

(** X5. A webhook touches the counter alone: tickets and sequence number
    stay as they are and the answer is the new counter. Inside the range
    the two webhooks undo each other; at the bounds they do nothing. *)
Theorem webhooks_adjust_counter_only (st : State) :
  (active_tickets (snd (webhook_slot_plus st)) = active_tickets st
   ∧ next_ticket_number (snd (webhook_slot_plus st)) = next_ticket_number st
   ∧ fst (webhook_slot_plus st) = occupied_slots_count (snd (webhook_slot_plus st)))
  ∧ (active_tickets (snd (webhook_slot_minus st)) = active_tickets st
     ∧ next_ticket_number (snd (webhook_slot_minus st)) = next_ticket_number st
     ∧ fst (webhook_slot_minus st) = occupied_slots_count (snd (webhook_slot_minus st)))
  ∧ (0 ≤ occupied_slots_count st < TOTAL_SLOTS →
     fst (webhook_slot_plus st) = occupied_slots_count st + 1
     ∧ snd (webhook_slot_minus (snd (webhook_slot_plus st))) = st)
  ∧ (0 < occupied_slots_count st ≤ TOTAL_SLOTS →
     fst (webhook_slot_minus st) = occupied_slots_count st - 1
     ∧ snd (webhook_slot_plus (snd (webhook_slot_minus st))) = st)
  ∧ (TOTAL_SLOTS ≤ occupied_slots_count st → snd (webhook_slot_plus st) = st)
  ∧ (occupied_slots_count st ≤ 0 → snd (webhook_slot_minus st) = st).
Proof.
  rewrite !webhook_slot_minus_eq, !webhook_slot_plus_eq. cbv zeta.
  destruct st as [m occ nxt]. unfold set_occupied_slots_count.
  cbn [fst snd active_tickets occupied_slots_count next_ticket_number].
  split; [done|]. split; [done|].
  split; [|split; [|split]].
  - intros Hocc.
    destruct (Z.ltb_spec occ TOTAL_SLOTS); [|lia].
    destruct (Z.ltb_spec 0 (occ + 1)); [|lia].
    split; [done|]. f_equal. lia.
  - intros Hocc.
    destruct (Z.ltb_spec 0 occ); [|lia].
    destruct (Z.ltb_spec (occ - 1) TOTAL_SLOTS); [|lia].
    split; [done|]. f_equal. lia.
  - intros Hocc. destruct (Z.ltb_spec occ TOTAL_SLOTS); [lia|done].
  - intros Hocc. destruct (Z.ltb_spec 0 occ); [lia|done].
Qed.

(** ** Check-out *)

Section CheckOut.

Lemma create_exit_success (raw : str) (now : Z) (st : State) (ticket : Ticket) :
  active_tickets st !! upper (strip raw) = Some ticket →
  fst (create_exit (Some raw) now st)
  = Success {| exit_ticket_id := upper (strip raw);
               exit_plate_number := plate_number ticket;
               exit_duration_hours := fst (calculate_cost (entry_time ticket) now);
               exit_cost := snd (calculate_cost (entry_time ticket) now);
               exit_entry_time := entry_time ticket;
               exit_exit_time := now |} 200.
Proof.
  intros Hsome. unfold create_exit, mbind, M_bind, bind, get.
  rewrite Hsome. destruct (calculate_cost _ _) as [h c]. simpl.
  destruct (0 <? occupied_slots_count st); reflexivity.
Qed.

(** The slots held after a ticket has been deleted from a ledger with
    distinct slots. *)
Lemma held_delete (st st' : State) (id : str) (t : Ticket) (i : Z) :
  slots_distinct st →
  active_tickets st !! id = Some t →
  active_tickets st' = delete id (active_tickets st) →
  held st' i ↔ held st i ∧ i ≠ slot_number t.
Proof.
  intros Hd Ht Heq. unfold held. rewrite Heq. split.
  - intros (k & t' & [Hk Hkt]%lookup_delete_Some & <-). split; [eauto|].
    intros Hs. destruct Hk. symmetry. by eapply Hd.
  - intros [(k & t' & Hkt & <-) Hne]. exists k, t'. split; [|done].
    apply lookup_delete_Some. split; [|done]. intros <-. congruence.
Qed.

(** The lowest free slot is determined by what is held. *)
Lemma find_next_available_slot_unique (st : State) (i : Z) :
  1 ≤ i ≤ TOTAL_SLOTS → ¬ held st i → (∀ j, 1 ≤ j < i → held st j) →
  find_next_available_slot st = Some i.
Proof.
  intros Hi Hfree Hbelow.
  pose proof (find_next_available_slot_spec st) as Hspec.
  destruct (find_next_available_slot st) as [i'|].
  - destruct Hspec as (Hi' & Hfree' & Hbelow'). f_equal.
    destruct (Z.lt_trichotomy i i') as [Hlt|[->|Hgt]]; [|done|].
    + destruct Hfree. apply Hbelow'. lia.
    + destruct Hfree'. apply Hbelow. lia.
  - destruct Hfree. by apply Hspec.
Qed.

End CheckOut.

(** X6. A check-out of an active ticket answers 200 with the ticket's
    plate and entry time and the bill of [calculate_cost] between entry
    and now; it deletes that ticket and no other, keeps the sequence
    number, and a second check-out of the same id, at any time, is
    answered "Ticket not found" and changes nothing. *)
Theorem create_exit_checks_out_once
    (st : State) (raw : str) (now : Z) (t : Ticket) :
  active_tickets st !! upper (strip raw) = Some t →
  let st' := snd (create_exit (Some raw) now st) in
  fst (create_exit (Some raw) now st)
  = Success {| exit_ticket_id := upper (strip raw);
               exit_plate_number := plate_number t;
               exit_duration_hours := fst (calculate_cost (entry_time t) now);
               exit_cost := snd (calculate_cost (entry_time t) now);
               exit_entry_time := entry_time t;
               exit_exit_time := now |} 200
  ∧ active_tickets st' !! upper (strip raw) = None
  ∧ (∀ k, k ≠ upper (strip raw) →
          active_tickets st' !! k = active_tickets st !! k)
  ∧ size (active_tickets st') = pred (size (active_tickets st))
  ∧ next_ticket_number st' = next_ticket_number st
  ∧ (∀ later, create_exit (Some raw) later st' = (TicketNotFoundError, st')).
Proof.
  intros Ht st'. subst st'.
  split; [by apply create_exit_success|].
  rewrite (create_exit_found _ _ _ t) by done. cbn [active_tickets next_ticket_number].
  split; [apply lookup_delete_eq|].
  split; [intros k Hk; by apply lookup_delete_ne|].
  split; [by apply map_size_delete_Some|].
  split; [done|].
  intros later. apply create_exit_not_found. apply lookup_delete_eq.
Qed.

(** X7. Checking out a ticket of a ledger whose tickets hold distinct
    slots frees its slot, and the lowest free slot afterwards is the
    smaller of that slot and the slot that was free before (the slot
    itself when the lot was full): slots are reused lowest first. *)
Theorem create_exit_frees_slot
    (st : State) (raw : str) (now : Z) (t : Ticket) :
  well_formed st →
  active_tickets st !! upper (strip raw) = Some t →
  let st' := snd (create_exit (Some raw) now st) in
  ¬ held st' (slot_number t)
  ∧ find_next_available_slot st'
    = Some (match find_next_available_slot st with
            | Some i => Z.min i (slot_number t)
            | None => slot_number t
            end).
Proof.
  intros [Hd Hr] Ht st'.
  assert (Hheld : ∀ i, held st' i ↔ held st i ∧ i ≠ slot_number t).
  { intros i. eapply held_delete; [done|exact Ht|].
    subst st'. by rewrite (create_exit_found _ _ _ t). }
  pose proof (Hr _ _ Ht) as Hrange.
  split; [rewrite Hheld; tauto|].
  pose proof (find_next_available_slot_spec st) as Hspec.
  apply find_next_available_slot_unique.
  - destruct (find_next_available_slot st) as [i|]; lia.
  - rewrite Hheld. destruct (find_next_available_slot st) as [i|]; [|tauto].
    destruct Hspec as (_ & Hfree & _).
    destruct (Z.min_spec i (slot_number t)) as [[_ ->]|[_ ->]]; tauto.
  - intros j Hj. apply Hheld.
    destruct (find_next_available_slot st) as [i|].
    + destruct Hspec as (_ & _ & Hbelow). split; [apply Hbelow|]; lia.
    + split; [apply Hspec|]; lia.
Qed.

(** ** Counter and tickets in step *)

Section Sync.

Lemma held_slot_list (st : State) (i : Z) : held st i ↔ i ∈ slot_list st.
Proof.
  rewrite slot_list_eq, list_elem_of_fmap. unfold held. split.
  - intros (k & t & Hkt & <-). exists (k, t).
    split; [done|by apply elem_of_map_to_list].
  - intros ([k t] & -> & Hkt%elem_of_map_to_list). by exists k, t.
Qed.

(** When every slot is held there are at least [TOTAL_SLOTS] tickets. *)
Lemma size_ge_TOTAL_SLOTS (st : State) :
  (∀ j, 1 ≤ j ≤ TOTAL_SLOTS → held st j) →
  TOTAL_SLOTS ≤ Z.of_nat (size (active_tickets st)).
Proof.
  intros Hall.
  assert (seqZ 1 TOTAL_SLOTS ⊆+ slot_list st) as Hsub.
  { apply NoDup_submseteq; [apply NoDup_seqZ|].
    intros i Hi%elem_of_seqZ. apply held_slot_list, Hall. lia. }
  apply submseteq_length in Hsub.
  rewrite length_seqZ in Hsub. unfold slot_list, values in Hsub.
  rewrite !length_fmap, length_map_to_list in Hsub. unfold TOTAL_SLOTS in *. lia.
Qed.

(** A full scan that finds nothing means exactly [TOTAL_SLOTS] tickets. *)
Lemma size_when_no_slot (st : State) :
  well_formed st → find_next_available_slot st = None →
  Z.of_nat (size (active_tickets st)) = TOTAL_SLOTS.
Proof.
  intros [Hd Hr] Hnone.
  pose proof (find_next_available_slot_spec st) as Hspec. rewrite Hnone in Hspec.
  pose proof (size_ge_TOTAL_SLOTS st Hspec).
  pose proof (size_le_TOTAL_SLOTS st Hd Hr). lia.
Qed.

Lemma synced_create_entry (data : option str) (now : Z) (st : State) :
  ids_used st → synced st → synced (snd (create_entry data now st)).
Proof.
  intros Hids Hs. unfold synced in *.
  destruct (create_entry_cases data now st); cbn [snd]; [done|done|done|].
  cbn [occupied_slots_count active_tickets].
  rewrite map_size_insert_None by (by apply next_id_fresh). lia.
Qed.

Lemma synced_create_exit (data : option str) (now : Z) (st : State) :
  synced st → synced (snd (create_exit data now st)).
Proof.
  intros Hs. unfold synced in *. destruct data as [raw|]; [|done].
  destruct (active_tickets st !! upper (strip raw)) as [t|] eqn:Ht.
  - rewrite (create_exit_found _ _ _ t) by done.
    cbn [occupied_slots_count active_tickets].
    rewrite map_size_delete_Some by eauto.
    assert (size (active_tickets st) ≠ 0%nat) as Hne.
    { apply map_size_ne_0_lookup. eauto. }
    destruct (Z.ltb_spec 0 (occupied_slots_count st)); lia.
  - by rewrite create_exit_not_found.
Qed.

Lemma synced_step (op : Operation) (st : State) :
  is_webhook op = false → ids_used st → synced st → synced (step op st).
Proof.
  intros Hop Hids Hs. destruct op; try discriminate Hop; cbn [step].
  - rewrite populate_initial_data_eq. by case_decide.
  - done.
  - by apply synced_create_entry.
  - by apply synced_create_exit.
  - done.
Qed.

Lemma quiet_run_invariant (ops : list Operation) (st : State) :
  Forall (λ op, is_webhook op = false) ops →
  well_formed st ∧ ids_used st ∧ synced st →
  well_formed (run ops st) ∧ ids_used (run ops st) ∧ synced (run ops st).
Proof.
  revert st. induction ops as [|op ops IH]; intros st Hq (Hwf & Hids & Hs); [done|].
  apply Forall_cons in Hq as [Hop Hq]. cbn [run foldl]. apply (IH _ Hq).
  split; [by apply well_formed_step|].
  split; [by apply ids_used_step|by apply synced_step].
Qed.

(** In a synced, well-formed ledger the slot scan succeeds whenever the
    counter leaves room. *)
Lemma synced_has_slot (st : State) :
  synced st → occupied_slots_count st < TOTAL_SLOTS →
  find_next_available_slot st ≠ None.
Proof.
  intros Hs Hroom Hnone.
  pose proof (find_next_available_slot_spec st) as Hspec. rewrite Hnone in Hspec.
  pose proof (size_ge_TOTAL_SLOTS st Hspec). unfold synced in Hs. lia.
Qed.

End Sync.

(** X8. As long as no webhook is called, the counter equals the number
    of active tickets after every run from the state at module load, a
    check-in is never answered with the state-desync error, and a
    check-in with a plate that is not blank succeeds exactly when fewer
    than [TOTAL_SLOTS] tickets are active. *)
Theorem counter_synced_without_webhooks (ops : list Operation) :
  Forall (λ op, is_webhook op = false) ops →
  let st := run ops initial_state in
  synced st
  ∧ (∀ data now, fst (create_entry data now st) ≠ LotFullError_desync)
  ∧ (∀ raw now, strip raw ≠ [] →
       is_success (fst (create_entry (Some raw) now st)) = true
       ↔ Z.of_nat (size (active_tickets st)) < TOTAL_SLOTS).
Proof.
  intros Hq st.
  destruct (quiet_run_invariant ops initial_state Hq) as (Hwf & Hids & Hs).
  { split; [apply well_formed_initial|].
    split; [by apply ids_used_reachable, reachable_initial|done]. }
  fold st in Hwf, Hids, Hs.
  split; [done|]. split.
  - intros data now.
    destruct (create_entry_cases data now st) as [| |raw ? ? Hroom Hnone|];
      cbn [fst]; try discriminate.
    by destruct (synced_has_slot st Hs Hroom).
  - intros raw now Hplate. unfold synced in Hs.
    destruct (create_entry_cases (Some raw) now st)
      as [Hblank| |raw' ? ? Hroom Hnone|]; cbn [fst is_success].
    + destruct Hplate. by apply Hblank.
    + split; [done|lia].
    + by destruct (synced_has_slot st Hs Hroom).
    + split; [lia|done].
Qed.

(** X9. When a check-in takes the state-desync branch in a ledger whose
    tickets hold distinct slots of the range, the lot really is full:
    the counter is set to exactly [TOTAL_SLOTS], which is the number of
    active tickets, and the next check-in gets the plain lot-full error
    and changes nothing. *)
Theorem create_entry_desync_fills_counter
    (st : State) (raw : str) (now : Z) :
  well_formed st →
  strip raw ≠ [] →
  occupied_slots_count st < TOTAL_SLOTS →
  find_next_available_slot st = None →
  let st' := snd (create_entry (Some raw) now st) in
  occupied_slots_count st' = TOTAL_SLOTS
  ∧ synced st'
  ∧ (∀ raw2 now2, strip raw2 ≠ [] →
       create_entry (Some raw2) now2 st' = (LotFullError, st')).
Proof.
  intros Hwf Hplate Hroom Hnone st'. subst st'.
  rewrite create_entry_desync by done.
  pose proof (size_when_no_slot st Hwf Hnone) as Hsize.
  unfold synced.
  cbn [snd occupied_slots_count active_tickets set_occupied_slots_count].
  split; [done|]. split; [done|].
  intros raw2 now2 Hplate2. apply create_entry_full; [done|].
  unfold set_occupied_slots_count. cbn [occupied_slots_count]. lia.
Qed.

(** ** Check-in followed by check-out *)

(** X10. In a state the process can reach, checking out the id that a
    successful check-in has just returned undoes the check-in: the
    answer is 200 with the plate as stored, the entry time of the
    check-in and the bill between the two times, and the ledger has the
    tickets and the counter it had before; only the sequence number has
    moved on by one. *)
Theorem check_in_then_check_out
    (st : State) (data : option str) (now later : Z)
    (body : EntryBody) (status : Z) :
  reachable st →
  fst (create_entry data now st) = Success body status →
  create_exit (Some (entry_ticket_id body)) later (snd (create_entry data now st))
  = (Success {| exit_ticket_id := entry_ticket_id body;
                exit_plate_number := entry_plate_number body;
                exit_duration_hours := fst (calculate_cost now later);
                exit_cost := snd (calculate_cost now later);
                exit_entry_time := now;
                exit_exit_time := later |} 200,
     {| active_tickets := active_tickets st;
        occupied_slots_count := occupied_slots_count st;
        next_ticket_number := next_ticket_number st + 1 |}).
Proof.
  intros Hst Hok.
  pose proof (counter_reachable st Hst) as Hc. unfold counter_in_range in Hc.
  pose proof (next_id_fresh st (ids_used_reachable st Hst)) as Hfresh.
  destruct (create_entry_cases data now st) as [| | |raw slot _ _ _ _];
    try discriminate Hok.
  injection Hok as <- _. cbn [snd entry_ticket_id entry_plate_number].
  fold (ticket_id_of (next_ticket_number st)) in *.
  set (id := ticket_id_of (next_ticket_number st)) in *.
  set (st1 := {| active_tickets := <[id := ticket_of_entry raw now st slot]>
                                     (active_tickets st);
                 occupied_slots_count := occupied_slots_count st + 1;
                 next_ticket_number := next_ticket_number st + 1 |}).
  assert (Hnorm : upper (strip id) = id) by apply ticket_id_normal.
  assert (Hlook : active_tickets st1 !! upper (strip id)
                  = Some (ticket_of_entry raw now st slot)).
  { rewrite Hnorm. apply lookup_insert_eq. }
  rewrite (surjective_pairing (create_exit (Some id) later st1)).
  rewrite (create_exit_success _ _ _ _ Hlook), (create_exit_found _ _ _ _ Hlook).
  rewrite !Hnorm.
  cbn [active_tickets occupied_slots_count next_ticket_number st1
       plate_number entry_time ticket_of_entry].
  rewrite delete_insert_eq, delete_id by done.
  destruct (Z.ltb_spec 0 (occupied_slots_count st + 1)); [|lia].
  by rewrite Z.add_simpl_r.
Qed.

(** ** The shape of reachable ledgers *)

(** X11. In every state the process can reach there are at most
    [TOTAL_SLOTS] active tickets, they hold pairwise distinct slots of
    [[1, TOTAL_SLOTS]], and each is stored under the id it carries,
    which is ["T"] with a sequence number from 1 up to, but not
    including, the next one. *)
Theorem reachable_ledger_shape (st : State) :
  reachable st →
  Z.of_nat (size (active_tickets st)) ≤ TOTAL_SLOTS
  ∧ slots_distinct st
  ∧ slots_in_range st
  ∧ 1 ≤ next_ticket_number st
  ∧ (∀ k t, active_tickets st !! k = Some t →
       ticket_id t = k
       ∧ ∃ n, 1 ≤ n < next_ticket_number st ∧ k = ticket_id_of n
              ∧ ticket_number k = Some n).
Proof.
  intros Hst.
  destruct (well_formed_reachable st Hst) as [Hd Hr].
  destruct (ids_used_reachable st Hst) as [Hnext Hids].
  split; [by apply size_le_TOTAL_SLOTS|].
  split; [done|]. split; [done|]. split; [done|].
  intros k t Hkt. destruct (Hids k t Hkt) as (Hid & n & Hn & ->).
  split; [done|]. exists n. split; [done|]. split; [done|].
  apply ticket_number_ticket_id_of. lia.
Qed.

(** X12. Check-out requests that cannot succeed: without a [ticket_id]
    field the answer is 400 and nothing changes; in a reachable state a
    blank id, and the id of any sequence number that has not been issued
    yet, are answered "Ticket not found" and nothing changes. *)
Theorem create_exit_rejections (st : State) (now : Z) :
  create_exit None now st = (Failure MSG_TICKET_REQUIRED 400, st)
  ∧ (reachable st →
     (∀ raw, strip raw = [] →
             create_exit (Some raw) now st = (TicketNotFoundError, st))
     ∧ (∀ n, next_ticket_number st ≤ n →
             create_exit (Some (ticket_id_of n)) now st
             = (TicketNotFoundError, st))).
Proof.
  split; [reflexivity|]. intros [Hnext Hids]%ids_used_reachable. split.
  - intros raw Hblank. apply create_exit_not_found. rewrite Hblank. cbn [upper].
    destruct (active_tickets st !! []) as [t|] eqn:Ht; [|done].
    by destruct (Hids _ t Ht) as (_ & n & _ & ?).
  - intros n Hn. apply create_exit_not_found. rewrite ticket_id_normal.
    destruct (active_tickets st !! ticket_id_of n) as [t|] eqn:Ht; [|done].
    destruct (Hids _ t Ht) as (_ & m & Hm & Heq).
    apply ticket_id_of_inj in Heq; lia.
Qed.

(** ** The listing and the ledger *)

Section ListingFacts.

Lemma get_all_tickets_Permutation (now : Z) (st : State) :
  fst (get_all_tickets now st) ≡ₚ ticket_data now <$> values (active_tickets st).
Proof.
  unfold get_all_tickets, mbind, M_bind, bind, get, mret, M_ret, ret.
  cbn [fst]. apply sort_by_slot_Permutation.
Qed.

Lemma get_all_tickets_sorted (now : Z) (st : State) :
  StronglySorted slot_le (fst (get_all_tickets now st)).
Proof.
  unfold get_all_tickets, mbind, M_bind, bind, get, mret, M_ret, ret.
  cbn [fst]. apply sort_by_slot_sorted.
Qed.

Lemma elem_of_get_all_tickets (now : Z) (st : State) (d : TicketData) :
  d ∈ fst (get_all_tickets now st)
  ↔ ∃ k t, active_tickets st !! k = Some t ∧ d = ticket_data now t.
Proof.
  rewrite get_all_tickets_Permutation. unfold values.
  rewrite <- list_fmap_compose, list_elem_of_fmap. split.
  - intros ([k t] & -> & Hkt%elem_of_map_to_list). by exists k, t.
  - intros (k & t & Hkt & ->). exists (k, t).
    split; [done|by apply elem_of_map_to_list].
Qed.

Lemma length_get_all_tickets (now : Z) (st : State) :
  length (fst (get_all_tickets now st)) = size (active_tickets st).
Proof.
  rewrite get_all_tickets_Permutation. unfold values.
  by rewrite !length_fmap, length_map_to_list.
Qed.

Lemma get_all_tickets_slots (now : Z) (st : State) :
  data_slot_number <$> fst (get_all_tickets now st) ≡ₚ slot_list st.
Proof.
  rewrite get_all_tickets_Permutation. unfold slot_list.
  assert (data_slot_number <$> (ticket_data now <$> values (active_tickets st))
          = slot_number <$> values (active_tickets st)) as ->; [|done].
  rewrite <- list_fmap_compose. apply list_fmap_ext.
  intros i t _. unfold compose.
  by destruct (ticket_data_cost now t) as (_ & _ & -> & _).
Qed.

(** A list in ascending order without repeated keys is strictly
    ascending. *)
Lemma sorted_NoDup_strict (l : list TicketData) :
  StronglySorted slot_le l → NoDup (data_slot_number <$> l) →
  StronglySorted slot_lt l.
Proof.
  induction 1 as [|x l Hsorted IH Hall]; intros Hnd; [constructor|].
  rewrite fmap_cons in Hnd. apply NoDup_cons in Hnd as [Hx Hnd].
  constructor; [by apply IH|].
  rewrite Forall_forall in Hall. apply Forall_forall. intros y Hy.
  specialize (Hall y Hy). unfold slot_le, slot_lt in *.
  assert (data_slot_number x ≠ data_slot_number y); [|lia].
  intros Heq. apply Hx. rewrite Heq. by apply list_elem_of_fmap_2.
Qed.

End ListingFacts.

(** X13. When the active tickets hold distinct slots, the listing shows
    no slot twice: it is in strictly ascending order of slot number. *)
Theorem get_all_tickets_strictly_ascending (now : Z) (st : State) :
  slots_distinct st →
  StronglySorted slot_lt (fst (get_all_tickets now st))
  ∧ NoDup (data_slot_number <$> fst (get_all_tickets now st)).
Proof.
  intros Hd%slots_distinct_NoDup.
  assert (NoDup (data_slot_number <$> fst (get_all_tickets now st))) as Hnd.
  { by rewrite get_all_tickets_slots. }
  split; [|done].
  apply sorted_NoDup_strict; [apply get_all_tickets_sorted|done].
Qed.

(** X14. In a state the process can reach, the listing taken after a
    successful check-in has one entry more than there were tickets; it
    shows the new ticket with the id, plate and slot of the answer, the
    entry time of the check-in and the bill from then to the time of the
    listing; and every ticket listed before is still listed. *)
Theorem check_in_then_listing
    (st : State) (data : option str) (now later : Z)
    (body : EntryBody) (status : Z) :
  reachable st →
  fst (create_entry data now st) = Success body status →
  let listing := fst (get_all_tickets later (snd (create_entry data now st))) in
  length listing = S (size (active_tickets st))
  ∧ {| data_ticket_id := entry_ticket_id body;
       data_plate_number := entry_plate_number body;
       data_slot_number := entry_slot_number body;
       data_entry_time := now;
       current_duration_hours := fst (calculate_cost now later);
       current_cost := snd (calculate_cost now later) |} ∈ listing
  ∧ (∀ d, d ∈ fst (get_all_tickets later st) → d ∈ listing).
Proof.
  intros Hst Hok listing. subst listing.
  pose proof (next_id_fresh st (ids_used_reachable st Hst)) as Hfresh.
  destruct (create_entry_cases data now st) as [| | |raw slot _ _ _ _];
    try discriminate Hok.
  injection Hok as <- _.
  cbn [snd entry_ticket_id entry_plate_number entry_slot_number].
  fold (ticket_id_of (next_ticket_number st)) in *.
  split; [|split].
  - rewrite length_get_all_tickets. cbn [active_tickets].
    by apply map_size_insert_None.
  - apply elem_of_get_all_tickets. cbn [active_tickets].
    exists (ticket_id_of (next_ticket_number st)), (ticket_of_entry raw now st slot).
    split; [apply lookup_insert_eq|].
    unfold ticket_data, ticket_of_entry. cbn [entry_time].
    by destruct (calculate_cost now later).
  - intros d (k & t & Hkt & ->)%elem_of_get_all_tickets.
    apply elem_of_get_all_tickets. exists k, t. split; [|done].
    cbn [active_tickets]. rewrite lookup_insert_ne; [done|]. congruence.
Qed.

(** ** Filling the lot *)

Section Filling.

Lemma held_insert_fresh (st st' : State) (id : str) (t : Ticket) (i : Z) :
  active_tickets st !! id = None →
  active_tickets st' = <[id := t]> (active_tickets st) →
  held st' i ↔ held st i ∨ i = slot_number t.
Proof.
  intros Hfresh Heq. unfold held. rewrite Heq. split.
  - intros (k & t' & [[<- <-]|[Hk Hkt]]%lookup_insert_Some & <-); [by right|].
    left. eauto.
  - intros [(k & t' & Hkt & <-)| ->].
    + exists k, t'. split; [|done]. rewrite lookup_insert_ne; [done|]. congruence.
    + exists id, t. split; [apply lookup_insert_eq|done].
Qed.

Lemma filled_insert (k : Z) (st st' : State) (id : str) (t : Ticket) :
  0 ≤ k →
  active_tickets st !! id = None →
  active_tickets st' = <[id := t]> (active_tickets st) →
  slot_number t = k + 1 →
  filled k st → filled (k + 1) st'.
Proof.
  intros Hk Hfresh Heq Hslot Hf i.
  rewrite (held_insert_fresh st st' id t i Hfresh Heq), (Hf i), Hslot. lia.
Qed.

Lemma filled_find (k : Z) (st : State) :
  0 ≤ k < TOTAL_SLOTS → filled k st →
  find_next_available_slot st = Some (k + 1).
Proof.
  intros Hk Hf. apply find_next_available_slot_unique.
  - lia.
  - rewrite (Hf (k + 1)). lia.
  - intros j Hj. apply Hf. lia.
Qed.

Lemma filled_empty (st : State) : active_tickets st = ∅ → filled 0 st.
Proof.
  intros Hempty i. unfold held. rewrite Hempty. split; [|lia].
  intros (k & t & Hkt & _). by rewrite lookup_empty in Hkt.
Qed.

(** One check-in into a lot with cars in slots [1..k], counter [k] and
    sequence number [k + 1]. *)
Lemma create_entry_filled (k : Z) (raw : str) (now : Z) (st : State) :
  0 ≤ k < TOTAL_SLOTS → strip raw ≠ [] →
  filled k st → ids_used st →
  occupied_slots_count st = k → next_ticket_number st = k + 1 →
  fst (create_entry (Some raw) now st) = Success (entry_body_after k raw now) 201
  ∧ filled (k + 1) (snd (create_entry (Some raw) now st))
  ∧ occupied_slots_count (snd (create_entry (Some raw) now st)) = k + 1
  ∧ next_ticket_number (snd (create_entry (Some raw) now st)) = k + 1 + 1.
Proof.
  intros Hk Hplate Hf Hids Hocc Hnext.
  rewrite (create_entry_success raw now st (k + 1)); [|done|lia|by apply filled_find].
  cbn [fst snd occupied_slots_count next_ticket_number].
  split; [|split; [|lia]].
  - unfold entry_body_after, ticket_id_of. by rewrite Hocc, Hnext.
  - apply (filled_insert k st _ (ticket_id_of (next_ticket_number st))
             (ticket_of_entry raw now st (k + 1)));
      [lia|by apply next_id_fresh|reflexivity|reflexivity|done].
Qed.

Lemma entries_filled (reqs : list (str * Z)) (k : Z) (st : State) :
  0 ≤ k → k + Z.of_nat (length reqs) ≤ TOTAL_SLOTS →
  Forall (λ r, strip (fst r) ≠ []) reqs →
  filled k st → ids_used st →
  occupied_slots_count st = k → next_ticket_number st = k + 1 →
  let st' := run (entries reqs) st in
  filled (k + Z.of_nat (length reqs)) st'
  ∧ ids_used st'
  ∧ occupied_slots_count st' = k + Z.of_nat (length reqs)
  ∧ next_ticket_number st' = k + Z.of_nat (length reqs) + 1.
Proof.
  revert k st. induction reqs as [|[raw now] reqs IH];
    intros k st Hk Hlen Hvalid Hf Hids Hocc Hnext.
  - cbn [length entries fmap list_fmap run foldl]. by rewrite Z.add_0_r.
  - apply Forall_cons in Hvalid as [Hplate Hvalid]. cbn [length] in *.
    cbn [entries fmap list_fmap run foldl fst snd step].
    destruct (create_entry_filled k raw now st) as (_ & Hf' & Hocc' & Hnext');
      [lia|done..|].
    pose proof (ids_used_step (OpEntry (Some raw) now) st Hids) as Hids'.
    cbn [step] in Hids'.
    specialize (IH (k + 1) _ ltac:(lia) ltac:(lia) Hvalid Hf' Hids' Hocc' Hnext').
    replace (k + Z.of_nat (S (length reqs)))
      with (k + 1 + Z.of_nat (length reqs)) by lia.
    exact IH.
Qed.

End Filling.

(** X15. Check-ins into the empty lot fill the slots in order: after
    [k <= TOTAL_SLOTS] check-ins with plates that are not blank, the
    slots [1..k] are held, the counter is [k] and the sequence number is
    [k + 1]; while [k < TOTAL_SLOTS] the next such check-in is answered
    201 with slot [k + 1], id T followed by [k + 1] and
    [TOTAL_SLOTS - (k + 1)] slots left, and once [k = TOTAL_SLOTS] it is
    answered "Parking lot is full" and changes nothing. *)
Theorem check_ins_fill_slots_in_order (reqs : list (str * Z)) :
  Forall (λ r, strip (fst r) ≠ []) reqs →
  Z.of_nat (length reqs) ≤ TOTAL_SLOTS →
  let k := Z.of_nat (length reqs) in
  let st := run (entries reqs) initial_state in
  filled k st
  ∧ occupied_slots_count st = k
  ∧ next_ticket_number st = k + 1
  ∧ (∀ raw now, strip raw ≠ [] →
       if decide (k < TOTAL_SLOTS)
       then fst (create_entry (Some raw) now st)
            = Success (entry_body_after k raw now) 201
       else create_entry (Some raw) now st = (LotFullError, st)).
Proof.
  intros Hvalid Hlen k st.
  destruct (entries_filled reqs 0 initial_state) as (Hf & Hids & Hocc & Hnext);
    [lia|lia|done|by apply filled_empty
    |by apply ids_used_reachable, reachable_initial|done|done|].
  rewrite !Z.add_0_l in *. fold k st in Hf, Hids, Hocc, Hnext.
  split; [done|]. split; [done|]. split; [done|].
  intros raw now Hplate. case_decide as Hk.
  - by apply create_entry_filled; [lia|..].
  - apply create_entry_full; [done|lia].
Qed.

(** ** Loading the initial data *)

Section InitialData.

Lemma populate_one_filled (k : Z) (entry : str * Z) (st : State) :
  0 ≤ k < TOTAL_SLOTS → filled k st →
  snd (populate_one entry st) = load_one (k + 1) entry st.
Proof.
  intros Hk Hf. destruct entry as [plate time].
  unfold populate_one, mbind, M_bind, bind, get. rewrite generate_ticket_id_eq.
  rewrite (filled_find k); [reflexivity|done|].
  intros i. by rewrite <- (Hf i).
Qed.

Lemma load_one_filled (k : Z) (entry : str * Z) (st : State) :
  0 ≤ k → filled k st → ids_used st →
  filled (k + 1) (load_one (k + 1) entry st) ∧ ids_used (load_one (k + 1) entry st).
Proof.
  intros Hk Hf Hids. split.
  - eapply (filled_insert k st); [done|by apply next_id_fresh|reflexivity|reflexivity|done].
  - eapply (ids_used_insert st); [reflexivity|reflexivity|reflexivity|done].
Qed.

(** After an entry has been handled the ledger is not empty. *)
Lemma populate_one_non_empty (entry : str * Z) (st : State) :
  active_tickets (snd (populate_one entry st)) ≠ ∅.
Proof.
  destruct (decide (active_tickets st = ∅)) as [Hempty|Hne].
  - rewrite (populate_one_filled 0); [|done|by apply filled_empty].
    apply insert_non_empty.
  - destruct entry as [plate time].
    unfold populate_one, mbind, M_bind, bind, get. rewrite generate_ticket_id_eq.
    destruct (find_next_available_slot _); [apply insert_non_empty|done].
Qed.

Lemma for_each_non_empty (l : list (str * Z)) (st : State) :
  active_tickets st ≠ ∅ ∨ l ≠ [] →
  active_tickets (snd (for_each populate_one l st)) ≠ ∅.
Proof.
  revert st. induction l as [|e l IH]; intros st Hne.
  - by destruct Hne.
  - cbn [for_each]. unfold mbind, M_bind, bind.
    pose proof (populate_one_non_empty e st) as H1.
    destruct (populate_one e st) as [[] st1]. apply IH. by left.
Qed.

End InitialData.

(** X16. [populate_initial_data] loads its table once: on a ledger that
    has tickets it changes nothing, and after it has run the ledger has
    tickets, so running it again changes nothing. On an empty ledger
    with sequence number [n >= 1] it stores the three cars of the table
    under the ids of [n], [n + 1], [n + 2] in slots 1, 2, 3, with
    uppercased plates, sets the counter to 3, whatever it was, and
    leaves the sequence number at [n + 3]. *)
Theorem populate_initial_data_loads_once (st : State) :
  let st' := snd (populate_initial_data st) in
  (active_tickets st ≠ ∅ → st' = st)
  ∧ snd (populate_initial_data st') = st'
  ∧ (active_tickets st = ∅ → 1 ≤ next_ticket_number st →
     let n := next_ticket_number st in
     active_tickets st'
     = <[ticket_id_of (n + 1 + 1)
         := loaded_ticket (n + 1 + 1) 3 (py "F7890CC", 1760671800000000)]>
       (<[ticket_id_of (n + 1)
          := loaded_ticket (n + 1) 2 (py "D4567BB", 1760667300000000)]>
        (<[ticket_id_of n
           := loaded_ticket n 1 (py "B1234AA", 1760662800000000)]> ∅))
     ∧ size (active_tickets st') = 3%nat
     ∧ occupied_slots_count st' = 3
     ∧ next_ticket_number st' = n + 3).
Proof.
  intros st'. subst st'. split; [|split].
  - intros Hne. rewrite populate_initial_data_eq. by case_decide.
  - rewrite (populate_initial_data_eq (snd (populate_initial_data st))).
    case_decide as Hempty; [|done]. exfalso. revert Hempty.
    rewrite populate_initial_data_eq. case_decide as Hst; [|done].
    cbv zeta. unfold set_occupied_slots_count. cbn [active_tickets].
    apply for_each_non_empty. by right.
  - intros Hempty Hnext n.
    assert (Hids : ids_used st).
    { split; [done|]. intros k t. by rewrite Hempty, lookup_empty. }
    pose proof (filled_empty st Hempty) as Hf0.
    set (e1 := (py "B1234AA", 1760662800000000)).
    set (e2 := (py "D4567BB", 1760667300000000)).
    set (e3 := (py "F7890CC", 1760671800000000)).
    destruct (load_one_filled 0 e1 st) as [Hf1 Hids1]; [done..|].
    destruct (load_one_filled 1 e2 _ ltac:(lia) Hf1 Hids1) as [Hf2 Hids2].
    destruct (load_one_filled 2 e3 _ ltac:(lia) Hf2 Hids2) as [Hf3 Hids3].
    assert (Hloop : snd (for_each populate_one initial_entries st)
                    = load_one 3 e3 (load_one 2 e2 (load_one 1 e1 st))).
    { unfold initial_entries. fold e1 e2 e3. cbn [for_each].
      unfold mbind, M_bind, bind.
      pose proof (populate_one_filled 0 e1 st ltac:(done) Hf0) as H1.
      destruct (populate_one e1 st) as [[] st1]. cbn [snd] in H1. subst st1.
      pose proof (populate_one_filled 1 e2 _ ltac:(done) Hf1) as H2.
      destruct (populate_one e2 _) as [[] st2]. cbn [snd] in H2. subst st2.
      pose proof (populate_one_filled 2 e3 _ ltac:(done) Hf2) as H3.
      destruct (populate_one e3 _) as [[] st3]. cbn [snd] in H3. by subst st3. }
    rewrite populate_initial_data_eq. case_decide; [|done].
    cbv zeta. rewrite Hloop. unfold set_occupied_slots_count.
    cbn [active_tickets occupied_slots_count next_ticket_number load_one].
    rewrite Hempty. fold n.
    assert (Hsize : size (<[ticket_id_of (n + 1 + 1) := loaded_ticket (n + 1 + 1) 3 e3]>
                      (<[ticket_id_of (n + 1) := loaded_ticket (n + 1) 2 e2]>
                        (<[ticket_id_of n := loaded_ticket n 1 e1]>
                          (∅ : gmap str Ticket)))) = 3%nat).
    { pose proof (next_id_fresh _ Hids) as Hfresh0.
      pose proof (next_id_fresh _ Hids1) as Hfresh1.
      pose proof (next_id_fresh _ Hids2) as Hfresh2.
      cbn [active_tickets next_ticket_number load_one] in Hfresh0, Hfresh1, Hfresh2.
      rewrite Hempty in Hfresh0, Hfresh1, Hfresh2. fold n in Hfresh0, Hfresh1, Hfresh2.
      by rewrite !map_size_insert_None, map_size_empty. }
    split; [done|]. split; [done|]. rewrite Hsize. split; [done|lia].
Qed.

(** ** The dashboard and the bill *)

(** X17. What the listing shows for a ticket is never more than what its
    check-out bills later: the ticket appears in the listing taken at
    [seen], and a check-out at a time [left >= seen] charges at least
    the hours and the cost shown there. *)
Theorem listing_cost_at_most_bill
    (st : State) (raw : str) (t : Ticket) (seen left : Z)
    (body : ExitBody) (status : Z) :
  active_tickets st !! upper (strip raw) = Some t →
  seen ≤ left →
  fst (create_exit (Some raw) left st) = Success body status →
  ticket_data seen t ∈ fst (get_all_tickets seen st)
  ∧ current_duration_hours (ticket_data seen t) ≤ exit_duration_hours body
  ∧ current_cost (ticket_data seen t) ≤ exit_cost body.
Proof.
  intros Ht Hle Hok.
  rewrite (create_exit_success _ _ _ t) in Hok by done. injection Hok as <- _.
  cbn [exit_duration_hours exit_cost].
  split; [apply elem_of_get_all_tickets; eauto|].
  destruct (ticket_data_cost seen t) as (Hcost & _).
  pose proof (f_equal fst Hcost) as Hhours. pose proof (f_equal snd Hcost) as Hpay.
  cbn [fst snd] in Hhours, Hpay. rewrite Hhours, Hpay.
  by apply calculate_cost_le.
Qed.

End Ledger.

(** * The properties at work

    Each property with a hypothesis is applied to a concrete run of the
    ledger. The runs use the Latin-1 part of the case table; code point
    160 is the no-break space, which [strip] removes, 233 is a small e
    with acute accent and 223 a sharp s, which [upper] maps to code point
    201 and to two capital S. *)

#[local] Existing Instance latin1_upper.

Lemma create_entry_counter_full_witness :
  fst (create_entry (Some (160%N :: py " b 1006 aa ")) (seconds 6) full_lot)
  = LotFullError
  ∧ snd (create_entry (Some (160%N :: py " b 1006 aa ")) (seconds 6) full_lot)
    = full_lot.
Proof.
  apply create_entry_counter_full.
  - vm_compute. discriminate.
  - vm_compute. discriminate.
Defined.

Lemma create_entry_desync_resyncs_witness :
  let st' := snd (create_entry (Some (py "B1006AA")) (seconds 7) desynced_lot) in
  fst (create_entry (Some (py "B1006AA")) (seconds 7) desynced_lot)
  = LotFullError_desync
  ∧ occupied_slots_count st' = Z.of_nat (size (active_tickets desynced_lot))
  ∧ active_tickets st' = active_tickets desynced_lot
  ∧ next_ticket_number st' = next_ticket_number desynced_lot.
Proof.
  apply create_entry_desync_resyncs.
  - vm_compute. discriminate.
  - vm_compute. reflexivity.
  - vm_compute. reflexivity.
Defined.

Lemma create_exit_unknown_ticket_witness :
  fst (create_exit (Some (160%N :: py "t0009 ")) (seconds 9) populated)
  = TicketNotFoundError
  ∧ snd (create_exit (Some (160%N :: py "t0009 ")) (seconds 9) populated) = populated
  ∧ occupied_slots_count
      (snd (create_exit (Some (160%N :: py "t0009 ")) (seconds 9) populated))
    = occupied_slots_count populated.
Proof.
  apply create_exit_unknown_ticket. vm_compute. reflexivity.
Defined.

Lemma check_ins_assign_distinct_slots_witness :
  let reqs := [(Some (py "B 1 XYZ"), seconds 1);
               (Some (160%N :: py "ab 22 c"), seconds 2)] in
  each_check_in
    (λ before response after,
       ∃ body status t,
         response = Success body status
         ∧ 1 ≤ entry_slot_number body ≤ TOTAL_SLOTS
         ∧ ¬ held before (entry_slot_number body)
         ∧ active_tickets after
           = <[entry_ticket_id body := t]> (active_tickets before)
         ∧ ticket_id t = entry_ticket_id body
         ∧ slot_number t = entry_slot_number body
         ∧ held after (entry_slot_number body)
         ∧ slots_distinct after)
    reqs populated
  ∧ NoDup (assigned_slots (check_ins reqs populated))
  ∧ length (assigned_slots (check_ins reqs populated)) = length reqs.
Proof.
  apply check_ins_assign_distinct_slots.
  - apply slots_distinct_NoDup. apply (bool_decide_unpack _). by vm_compute.
  - vm_compute. discriminate.
  - vm_compute. repeat constructor.
Defined.

Lemma calculate_cost_monotone_witness :
  fst (calculate_cost 0 (seconds 3600)) ≤ fst (calculate_cost 0 (seconds 3601))
  ∧ snd (calculate_cost 0 (seconds 3600)) ≤ snd (calculate_cost 0 (seconds 3601))
  ∧ HOURLY_RATE ≤ snd (calculate_cost 0 (seconds 3600))
  ∧ calculate_cost (0 + seconds 7) (seconds 3600 + seconds 7)
    = calculate_cost 0 (seconds 3600).
Proof.
  apply calculate_cost_monotone. vm_compute. discriminate.
Defined.

Lemma calculate_cost_extra_hour_witness :
  calculate_cost 0 (seconds 1 + seconds 3600)
  = (fst (calculate_cost 0 (seconds 1)) + 1,
     snd (calculate_cost 0 (seconds 1)) + HOURLY_RATE).
Proof.
  apply calculate_cost_extra_hour.
  - vm_compute. reflexivity.
  - vm_compute. reflexivity.
Defined.

Lemma calculate_cost_exact_in_range_witness :
  let entry_time := 1760662800000000 in
  let exit_time := entry_time + seconds 5400 in
  let elapsed := exit_time - entry_time in
  let duration_hours := fst (calculate_cost entry_time exit_time) in
  let cost := snd (calculate_cost entry_time exit_time) in
  calculate_cost entry_time exit_time = compute_cost_spec elapsed
  ∧ 1 ≤ duration_hours
  ∧ elapsed ≤ duration_hours * US_PER_HOUR
  ∧ (duration_hours = 1 ∨ (duration_hours - 1) * US_PER_HOUR < elapsed)
  ∧ cost = duration_hours * HOURLY_RATE
  ∧ calculate_cost entry_time (entry_time - Z.of_N 0) = (1, HOURLY_RATE)
  ∧ calculate_cost entry_time (entry_time + seconds 1) = (1, HOURLY_RATE)
  ∧ fst (calculate_cost entry_time (entry_time + seconds 3600)) = 1
  ∧ fst (calculate_cost entry_time (entry_time + seconds 3601)) = 2.
Proof.
  apply (calculate_cost_exact_in_range
           1760662800000000 (1760662800000000 + seconds 5400) 0).
  vm_compute. reflexivity.
Defined.

Lemma create_entry_reports_available_witness :
  ∃ body,
    fst (create_entry (Some (py "B 7 XY")) (seconds 9) populated)
    = Success body 201
    ∧ 0 ≤ entry_available_slots body
    ∧ entry_available_slots body
      = available_slots (fst (get_available_slots
          (snd (create_entry (Some (py "B 7 XY")) (seconds 9) populated)))).
Proof.
  eexists. split; [by vm_compute|].
  eapply create_entry_reports_available. by vm_compute.
Defined.

Lemma create_exit_checks_out_once_witness :
  ∃ t, active_tickets populated !! upper (strip (py " t0002 ")) = Some t
  ∧ fst (create_exit (Some (py " t0002 ")) (seconds 9) populated)
    = Success {| exit_ticket_id := upper (strip (py " t0002 "));
                 exit_plate_number := plate_number t;
                 exit_duration_hours := fst (calculate_cost (entry_time t) (seconds 9));
                 exit_cost := snd (calculate_cost (entry_time t) (seconds 9));
                 exit_entry_time := entry_time t;
                 exit_exit_time := seconds 9 |} 200.
Proof.
  eexists. split; [by vm_compute|].
  eapply (create_exit_checks_out_once populated (py " t0002 ") (seconds 9)).
  by vm_compute.
Defined.

Lemma create_exit_frees_slot_witness :
  ∃ t, active_tickets full_lot !! upper (strip (py "t0003")) = Some t
  ∧ ¬ held (snd (create_exit (Some (py "t0003")) (seconds 9) full_lot))
           (slot_number t)
  ∧ find_next_available_slot
      (snd (create_exit (Some (py "t0003")) (seconds 9) full_lot))
    = Some (match find_next_available_slot full_lot with
            | Some i => Z.min i (slot_number t)
            | None => slot_number t
            end).
Proof.
  eexists. split; [by vm_compute|].
  apply (create_exit_frees_slot full_lot (py "t0003") (seconds 9)).
  - apply well_formed_reachable. unfold full_lot.
    apply reachable_run, reachable_initial.
  - by vm_compute.
Defined.

Lemma counter_synced_without_webhooks_witness :
  let st := run (five_cars ++ [OpExit (Some (py "T0002")) (seconds 8);
                               OpTickets (seconds 9)]) initial_state in
  synced st
  ∧ (∀ data now, fst (create_entry data now st) ≠ LotFullError_desync)
  ∧ (∀ raw now, strip raw ≠ [] →
       is_success (fst (create_entry (Some raw) now st)) = true
       ↔ Z.of_nat (size (active_tickets st)) < TOTAL_SLOTS).
Proof.
  apply counter_synced_without_webhooks. vm_compute. repeat constructor.
Defined.

Lemma create_entry_desync_fills_counter_witness :
  let st' := snd (create_entry (Some (py "B1006AA")) (seconds 7) desynced_lot) in
  occupied_slots_count st' = TOTAL_SLOTS
  ∧ synced st'
  ∧ (∀ raw2 now2, strip raw2 ≠ [] →
       create_entry (Some raw2) now2 st' = (LotFullError, st')).
Proof.
  apply create_entry_desync_fills_counter.
  - apply well_formed_reachable. unfold desynced_lot, full_lot.
    apply reachable_step, reachable_run, reachable_initial.
  - vm_compute. discriminate.
  - vm_compute. reflexivity.
  - vm_compute. reflexivity.
Defined.

Lemma check_in_then_check_out_witness :
  ∃ body,
    fst (create_entry (Some (py " b 7 xy ")) (seconds 10) populated)
    = Success body 201
    ∧ create_exit (Some (entry_ticket_id body)) (seconds 4000)
        (snd (create_entry (Some (py " b 7 xy ")) (seconds 10) populated))
      = (Success {| exit_ticket_id := entry_ticket_id body;
                    exit_plate_number := entry_plate_number body;
                    exit_duration_hours :=
                      fst (calculate_cost (seconds 10) (seconds 4000));
                    exit_cost := snd (calculate_cost (seconds 10) (seconds 4000));
                    exit_entry_time := seconds 10;
                    exit_exit_time := seconds 4000 |} 200,
         {| active_tickets := active_tickets populated;
            occupied_slots_count := occupied_slots_count populated;
            next_ticket_number := next_ticket_number populated + 1 |}).
Proof.
  eexists. split; [by vm_compute|].
  apply (check_in_then_check_out populated (Some (py " b 7 xy "))
           (seconds 10) (seconds 4000) _ 201).
  - apply reachable_step, reachable_initial.
  - by vm_compute.
Defined.

Lemma reachable_ledger_shape_witness :
  Z.of_nat (size (active_tickets full_lot)) ≤ TOTAL_SLOTS
  ∧ slots_distinct full_lot
  ∧ slots_in_range full_lot
  ∧ 1 ≤ next_ticket_number full_lot
  ∧ (∀ k t, active_tickets full_lot !! k = Some t →
       ticket_id t = k
       ∧ ∃ n, 1 ≤ n < next_ticket_number full_lot ∧ k = ticket_id_of n
              ∧ ticket_number k = Some n).
Proof.
  apply reachable_ledger_shape. unfold full_lot.
  apply reachable_run, reachable_initial.
Defined.

Lemma get_all_tickets_strictly_ascending_witness :
  StronglySorted slot_lt (fst (get_all_tickets (seconds 9) full_lot))
  ∧ NoDup (data_slot_number <$> fst (get_all_tickets (seconds 9) full_lot)).
Proof.
  apply get_all_tickets_strictly_ascending.
  apply slots_distinct_NoDup. apply (bool_decide_unpack _). by vm_compute.
Defined.

Lemma check_in_then_listing_witness :
  ∃ body,
    fst (create_entry (Some (py " b 7 xy ")) (seconds 10) populated)
    = Success body 201
    ∧ length (fst (get_all_tickets (seconds 4000)
               (snd (create_entry (Some (py " b 7 xy ")) (seconds 10) populated))))
      = S (size (active_tickets populated))
    ∧ {| data_ticket_id := entry_ticket_id body;
         data_plate_number := entry_plate_number body;
         data_slot_number := entry_slot_number body;
         data_entry_time := seconds 10;
         current_duration_hours := fst (calculate_cost (seconds 10) (seconds 4000));
         current_cost := snd (calculate_cost (seconds 10) (seconds 4000)) |}
      ∈ fst (get_all_tickets (seconds 4000)
          (snd (create_entry (Some (py " b 7 xy ")) (seconds 10) populated))).
Proof.
  eexists. split; [by vm_compute|].
  pose proof (check_in_then_listing populated (Some (py " b 7 xy "))
                (seconds 10) (seconds 4000) _ 201
                (reachable_step OpPopulate _ reachable_initial)
                ltac:(by vm_compute)) as (Hlen & Hin & _).
  split; [exact Hlen|exact Hin].
Defined.

Lemma check_ins_fill_slots_in_order_witness :
  let reqs := [(py "B 1 A", seconds 1);
               (160%N :: py "b" ++ 233%N :: py " 12 " ++ [223%N], seconds 2)] in
  let k := Z.of_nat (length reqs) in
  let st := run (entries reqs) initial_state in
  filled k st
  ∧ occupied_slots_count st = k
  ∧ next_ticket_number st = k + 1
  ∧ (∀ raw now, strip raw ≠ [] →
       if decide (k < TOTAL_SLOTS)
       then fst (create_entry (Some raw) now st)
            = Success (entry_body_after k raw now) 201
       else create_entry (Some raw) now st = (LotFullError, st)).
Proof.
  apply check_ins_fill_slots_in_order.
  - repeat constructor; vm_compute; discriminate.
  - vm_compute. discriminate.
Defined.

Lemma populate_initial_data_loads_once_witness :
  active_tickets populated
  = <[ticket_id_of 3
      := loaded_ticket 3 3 (py "F7890CC", 1760671800000000)]>
    (<[ticket_id_of 2
       := loaded_ticket 2 2 (py "D4567BB", 1760667300000000)]>
     (<[ticket_id_of 1
        := loaded_ticket 1 1 (py "B1234AA", 1760662800000000)]> ∅))
  ∧ size (active_tickets populated) = 3%nat
  ∧ occupied_slots_count populated = 3
  ∧ next_ticket_number populated = 4.
Proof.
  pose proof (populate_initial_data_loads_once initial_state) as (_ & _ & H).
  exact (H eq_refl ltac:(done)).
Defined.

Lemma listing_cost_at_most_bill_witness :
  ∃ t body,
    active_tickets populated !! upper (strip (py "t0001")) = Some t
    ∧ fst (create_exit (Some (py "t0001")) 1760671800000000 populated)
      = Success body 200
    ∧ ticket_data 1760667300000000 t
      ∈ fst (get_all_tickets 1760667300000000 populated)
    ∧ current_duration_hours (ticket_data 1760667300000000 t)
      ≤ exit_duration_hours body
    ∧ current_cost (ticket_data 1760667300000000 t) ≤ exit_cost body.
Proof.
  eexists _, _. split; [by vm_compute|]. split; [by vm_compute|].
  eapply (listing_cost_at_most_bill populated (py "t0001") _
            1760667300000000 1760671800000000 _ 200).
  - by vm_compute.
  - vm_compute. discriminate.
  - by vm_compute.
Defined.
